(** * The /api/audio resolver: metadata search with fuzzy matching, then two
      pools of mirror instances

    A shallow embedding of the three versions of the serverless function
    found in the repository:

    - [Audio]   : src/api/audio.js        (duration-only matching),
    - [Scored]  : src/unnamed/part_000    (composite scoring, "improved matching"),
    - [Reduced] : src/unnamed/part_001    (artist/duration reduce).

    JavaScript numbers are IEEE 754 binary64 values, so they are modelled by
    Rocq's primitive floats, whose operations are the same ones ([0/0] is
    [nan], every comparison with [nan] is [false]).  JavaScript strings are
    modelled by [string]; a character stands for one code unit of the
    Latin-1 range, which is where the functions below agree with the
    JavaScript runtime.

    The outside world is a function that answers each outbound call from
    the history of the request; a computation threads that history (the
    trace) and may throw.  Of the console output only the line that
    announces a strategy is kept in the trace; the three CORS headers, set
    on every response before anything else, are left out of the responses. *)

From Stdlib Require Import Floats ZArith List String Ascii Bool Lia DecimalString.
Import ListNotations.

Set Warnings "-inexact-float".

(** ** The JavaScript built-ins the program calls *)

Module JS.

Local Open Scope string_scope.

(** [\s] and the characters removed by [String.prototype.trim], below
    U+0100: TAB, LF, VT, FF, CR, SPACE and NO-BREAK SPACE. *)
Definition isSpace (c : ascii) : bool :=
  let n := nat_of_ascii c in
  ((9 <=? n) && (n <=? 13) || (n =? 32) || (n =? 160))%nat.

(** [String.prototype.toLowerCase] on one code unit: A-Z, and the
    Latin-1 capitals U+00C0..U+00DE except the multiplication sign. *)
Definition lowerChar (c : ascii) : ascii :=
  let n := nat_of_ascii c in
  if ((65 <=? n) && (n <=? 90)
      || (192 <=? n) && (n <=? 222) && negb (n =? 215))%nat
  then ascii_of_nat (n + 32) else c.

Fixpoint toLowerCase (s : string) : string :=
  match s with
  | EmptyString => EmptyString
  | String c s' => String (lowerChar c) (toLowerCase s')
  end.

Definition isEmpty (s : string) : bool :=
  match s with EmptyString => true | _ => false end.

Fixpoint trimStart (s : string) : string :=
  match s with
  | EmptyString => EmptyString
  | String c s' => if isSpace c then trimStart s' else s
  end.

Fixpoint trimEnd (s : string) : string :=
  match s with
  | EmptyString => EmptyString
  | String c s' =>
      let r := trimEnd s' in
      if isSpace c && isEmpty r then EmptyString else String c r
  end.

Definition trim (s : string) : string := trimEnd (trimStart s).

(** [s.replace(/\s+/g, '')]: every white-space character is dropped. *)
Fixpoint stripSpaces (s : string) : string :=
  match s with
  | EmptyString => EmptyString
  | String c s' =>
      if isSpace c then stripSpaces s' else String c (stripSpaces s')
  end.

(** [s.split(re)] for a regular expression [re] that matches exactly one
    character of the class [sep]: the pieces between separators, empty
    pieces included; the empty string splits into one empty piece. *)
Fixpoint split (sep : ascii -> bool) (s : string) : list string :=
  match s with
  | EmptyString => [EmptyString]
  | String c s' =>
      if sep c then EmptyString :: split sep s'
      else match split sep s' with
           | [] => [String c EmptyString]
           | piece :: pieces => String c piece :: pieces
           end
  end.

(** [hay.includes(needle)] *)
Fixpoint includes (hay needle : string) : bool :=
  prefix needle hay
  || match hay with
     | EmptyString => false
     | String _ hay' => includes hay' needle
     end.

(** [xs.join(sep)] *)
Fixpoint join (sep : string) (xs : list string) : string :=
  match xs with
  | [] => EmptyString
  | [x] => x
  | x :: rest => x ++ sep ++ join sep rest
  end.

(** Truthiness of a value that is a string or [undefined]. *)
Definition truthy (v : option string) : bool :=
  match v with
  | Some s => negb (isEmpty s)
  | None => false
  end.

(** An integer inside a template literal: its decimal digits. *)
Definition ofInteger (z : Z) : string := NilZero.string_of_int (Z.to_int z).

(** *** Numbers *)

Local Open Scope float_scope.

(** The Number nearest to an integer (ties to even). *)
Definition Number (z : Z) : float :=
  SF2Prim (binary_normalize prec emax z 0 false).

Definition NaN : float := nan.

(** Truthiness of a value that is a Number or [undefined]/[null]:
    [0], [-0] and [NaN] are falsy. *)
Definition truthyNum (v : option float) : bool :=
  match v with
  | Some d => negb (is_nan d || (d =? 0))
  | None => false
  end.

(** [Math.max(a, b)]: [NaN] if either is, and [+0] above [-0]. *)
Definition Math_max (a b : float) : float :=
  if is_nan a || is_nan b then NaN
  else if a <? b then b
  else if b <? a then a
  else if get_sign a then b else a.

Definition Math_abs (a : float) : float := abs a.

(** *** [parseInt(s)] with no radix argument *)

Definition digitValue (c : ascii) : option Z :=
  let n := Z.of_nat (nat_of_ascii c) in
  if ((48 <=? n) && (n <=? 57))%Z then Some (n - 48)%Z
  else if ((97 <=? n) && (n <=? 122))%Z then Some (n - 87)%Z
  else if ((65 <=? n) && (n <=? 90))%Z then Some (n - 55)%Z
  else None.

(** The longest prefix of digits of the radix, read left to right:
    [None] when [s] does not start with such a digit. *)
Fixpoint digitsPrefix (radix : Z) (acc : option Z) (s : string) : option Z :=
  match s with
  | EmptyString => acc
  | String c s' =>
      match digitValue c with
      | Some d =>
          if (d <? radix)%Z
          then digitsPrefix radix
                 (Some (match acc with Some a => a * radix + d | None => d end)%Z) s'
          else acc
      | None => acc
      end
  end.

Definition parseInt (s : string) : float :=
  let s1 := trimStart s in
  let (neg, s2) :=
    match s1 with
    | String "-" r => (true, r)
    | String "+" r => (false, r)
    | _ => (false, s1)
    end in
  let (radix, s3) :=
    match s2 with
    | String "0" (String "x" r) => (16%Z, r)
    | String "0" (String "X" r) => (16%Z, r)
    | _ => (10%Z, s2)
    end in
  match digitsPrefix radix None s3 with
  | None => NaN
  | Some v => SF2Prim (binary_normalize prec emax (if neg then - v else v) 0 neg)
  end.

(** *** [encodeURIComponent] *)

Definition hexDigit (n : nat) : ascii :=
  ascii_of_nat (if (n <? 10)%nat then 48 + n else 55 + n).

Definition percent (byte : nat) : string :=
  String "%" (String (hexDigit (byte / 16)) (String (hexDigit (byte mod 16)) EmptyString)).

Definition unreserved (c : ascii) : bool :=
  let n := nat_of_ascii c in
  ((48 <=? n) && (n <=? 57) || (65 <=? n) && (n <=? 90) || (97 <=? n) && (n <=? 122))%nat
  || existsb (Ascii.eqb c) (list_ascii_of_string "-_.!~*'()").

(** Unreserved characters are kept; any other code unit is replaced by
    the escapes of its UTF-8 bytes (one byte below U+0080, two above). *)
Fixpoint encodeURIComponent (s : string) : string :=
  match s with
  | EmptyString => EmptyString
  | String c s' =>
      let n := nat_of_ascii c in
      (if unreserved c then String c EmptyString
       else if (n <? 128)%nat then percent n
       else percent (192 + n / 64) ++ percent (128 + n mod 64))
      ++ encodeURIComponent s'
  end.

End JS.

(** ** Data model *)

(** An artist object; only its [name] is read. *)
Module Artist.
Record t := { name : string }.
End Artist.

(** An entry of [downloadUrl] or [image]: a quality label and a URL. *)
Module Link.
Record t := { quality : string; url : string }.
End Link.

(** [song.artists]; each list may be missing ([?.]). *)
Module Artists.
Record t := {
  primary : option (list Artist.t);
  featured : option (list Artist.t);
  all : option (list Artist.t)
}.
End Artists.

(** One search hit of the metadata service. *)
Module Song.
Record t := {
  name : string;
  artists : option Artists.t;
  duration : option float;
  downloadUrl : option (list Link.t);
  image : option (list Link.t);
  url : option string
}.
End Song.

(** What [searchJioSaavn] returns. *)
Module SaavnResult.
Record t := {
  source : string;
  title : string;
  artist : string;
  duration : option float;
  thumbnail : option string;
  downloadUrl : option string;
  url : option string
}.
End SaavnResult.

(** A parsed JSON body: the search reply [{ success, data: { results } }],
    or any other document, kept as its text. *)
Inductive Json :=
| JSearch (success : bool) (data : option (option (list Song.t)))
| JOther (text : string).

(** What an instance adapter returns. *)
Module InstanceResult.
Record t := { source : string; instance : string; data : Json }.
End InstanceResult.

(** ** The network and the effects of the program *)

(** What [fetch] gives back: *)
Module Http.
Record t := {
  status : Z;
  body : option Json     (* [None]: [response.json()] rejects *)
}.
Definition ok (r : t) : bool := ((200 <=? status r) && (status r <=? 299))%Z.
End Http.

(** One outbound call: the URL and the budget handed to [fetchWithTimeout]. *)
Record Call := { callUrl : string; callTimeout : Z }.

Inductive Outcome :=
| NetworkError (message : string)   (* [fetch] rejects *)
| Hung                              (* no answer within the budget: the timer aborts *)
| Responded (response : Http.t).

Inductive Strategy := Saavn | Stremio | Invidious.

(** The observable events of one request: the console line that announces
    a strategy, and the outbound calls. *)
Inductive Event :=
| Trying (s : Strategy)
| Fetch (c : Call).

Definition Trace := list Event.

(** The outside world answers a call knowing everything that happened
    before it. *)
Definition Network := Trace -> Call -> Outcome.

Inductive Result (A : Type) :=
| Ok (a : A)
| Throw (message : string).
Arguments Ok {A} a.
Arguments Throw {A} message.

(** Computations that extend the trace and may throw. *)
Definition IO (A : Type) := Trace -> Result A * Trace.

Definition ret {A} (a : A) : IO A := fun t => (Ok a, t).
Definition throw {A} (message : string) : IO A := fun t => (Throw message, t).
Definition bind {A B} (m : IO A) (k : A -> IO B) : IO B :=
  fun t => match m t with
           | (Ok a, t') => k a t'
           | (Throw e, t') => (Throw e, t')
           end.
Definition tryCatch {A} (m : IO A) (handler : string -> IO A) : IO A :=
  fun t => match m t with
           | (Ok a, t') => (Ok a, t')
           | (Throw e, t') => handler e t'
           end.
Definition emit (e : Event) : IO unit := fun t => (Ok tt, t ++ [e]).

Declare Scope io_scope.
Delimit Scope io_scope with io.
Notation "x <- m ;; k" := (bind m (fun x => k))
  (at level 61, m at next level, right associativity) : io_scope.
Notation "m ;;; k" := (bind m (fun _ => k))
  (at level 61, right associativity) : io_scope.
Local Open Scope io_scope.
Local Open Scope string_scope.

Definition SAAVN_BASE_URL := "https://saavn.sumit.co".

Definition INVIDIOUS_INSTANCES := [
  "invidious.darkness.services";
  "yt.omada.cafe";
  "invidious.reallyaweso.me";
  "invidious.f5.si";
  "inv-veltrix-2.zeabur.app";
  "inv-veltrix.zeabur.app";
  "inv-veltrix-3.zeabur.app";
  "inv.vern.cc";
  "invidious.materialio.us";
  "y.com.sb"
].

(** ** The responses of the handler *)

Inductive Body :=
| NoBody
| ErrorBody (error : string)
| SaavnBody (result : SaavnResult.t)            (* success: true, ...saavnResult *)
| InstanceBody (result : InstanceResult.t)      (* success: true, ...result *)
| NotFoundBody (error : string) (saavn stremio invidious : string)
| ServerErrorBody (error message : string).

Record Response := { status : Z; body : Body }.

Record Query := {
  id : option string;
  title : option string;
  author : option string;
  duration : option string
}.

Record Request := { method : string; query : Query }.

(** ** What the three versions share *)

Section Resolver.

Variable net : Network.

(** [fetchWithTimeout(url, options, timeout)] *)
Definition fetchWithTimeout (url : string) (timeout : Z) : IO Http.t :=
  fun t =>
    let c := {| callUrl := url; callTimeout := timeout |} in
    match net t c with
    | NetworkError e => (Throw e, (t ++ [Fetch c])%list)
    | Hung => (Throw "This operation was aborted", (t ++ [Fetch c])%list)
    | Responded r => (Ok r, (t ++ [Fetch c])%list)
    end.

(** [response.json()] *)
Definition json (r : Http.t) : IO Json :=
  match Http.body r with
  | Some j => ret j
  | None => throw "Unexpected token in JSON"
  end.

(** One turn of the loop of an instance adapter: [None] is [continue]. *)
Definition tryInstance (source : string) (base : string -> string)
    (videoId instance : string) : IO (option InstanceResult.t) :=
  tryCatch
    (response <- fetchWithTimeout (base instance ++ "/api/v1/videos/" ++ videoId) 8000 ;;
     if negb (Http.ok response) then ret None
     else
       data <- json response ;;
       ret (Some {| InstanceResult.source := source;
                    InstanceResult.instance := base instance;
                    InstanceResult.data := data |}))
    (fun _ => ret None).

(** [for (const instance of instances) { try { ... } catch { continue } }
    throw ...] *)
Fixpoint tryInstances (source : string) (base : string -> string)
    (exhausted : string) (instances : list string) (videoId : string)
    : IO InstanceResult.t :=
  match instances with
  | [] => throw exhausted
  | instance :: rest =>
      r <- tryInstance source base videoId instance ;;
      match r with
      | Some result => ret result
      | None => tryInstances source base exhausted rest videoId
      end
  end.

Definition fetchFromStremioOf (STREMIO_INSTANCES : list string) : string -> IO InstanceResult.t :=
  tryInstances "stremio" (fun i => i) "All Stremio instances failed" STREMIO_INSTANCES.

Definition fetchFromInvidious : string -> IO InstanceResult.t :=
  tryInstances "invidious" (fun i => "https://" ++ i) "All Invidious instances failed"
    INVIDIOUS_INSTANCES.

(** The body of the handler is the same text in the three files; they
    differ in [searchJioSaavn] and in the list of Stremio instances. *)
Section Handler.

Variable searchJioSaavn : string -> option string -> option string -> IO SaavnResult.t.
Variable fetchFromStremio : string -> IO InstanceResult.t.

(** A strategy inside its own [try]: [Some response] is the [return]
    of the handler, [None] falls through to the next statement. *)
Definition attempt {A} (s : Strategy) (run : IO A) (respond : A -> Body)
    : IO (option Response) :=
  tryCatch
    (emit (Trying s) ;;;
     result <- run ;;
     ret (Some {| status := 200; body := respond result |}))
    (fun _ => ret None).

Definition orElse (first : IO (option Response)) (next : IO Response) : IO Response :=
  r <- first ;;
  match r with
  | Some response => ret response
  | None => next
  end.

Definition handlerOf (req : Request) : IO Response :=
  if (method req =? "OPTIONS")%string then ret {| status := 200; body := NoBody |}
  else if negb (method req =? "GET")%string then
    ret {| status := 405; body := ErrorBody "Method not allowed" |}
  else
    let q := query req in
    match id q with
    | Some videoId =>
      if JS.isEmpty videoId then
        ret {| status := 400; body := ErrorBody "Missing required parameter: id" |}
      else
        tryCatch
          (orElse
             match title q with
             | Some titleText =>
                 if JS.isEmpty titleText then ret None
                 else attempt Saavn (searchJioSaavn titleText (author q) (duration q)) SaavnBody
             | None => ret None
             end
          (orElse (attempt Stremio (fetchFromStremio videoId) InstanceBody)
          (orElse (attempt Invidious (fetchFromInvidious videoId) InstanceBody)
             (ret {| status := 404;
                     body := NotFoundBody "Could not fetch audio from any source"
                               (if JS.truthy (title q) then "failed" else "skipped")
                               "failed" "failed" |}))))
          (fun message =>
             ret {| status := 500; body := ServerErrorBody "Internal server error" message |})
    | None =>
        ret {| status := 400; body := ErrorBody "Missing required parameter: id" |}
    end.

End Handler.

End Resolver.

(** ** Deriving the result from the selected song (all versions) *)

Import JS.
Local Open Scope float_scope.

(** [xs?.map(a => a.name)], [undefined] when the list is missing. *)
Definition namesOf (xs : option (list Artist.t)) : option (list string) :=
  option_map (map Artist.name) xs.

Definition primaryOf (song : Song.t) : option (list Artist.t) :=
  match Song.artists song with Some a => Artists.primary a | None => None end.
Definition featuredOf (song : Song.t) : option (list Artist.t) :=
  match Song.artists song with Some a => Artists.featured a | None => None end.
Definition allOf (song : Song.t) : option (list Artist.t) :=
  match Song.artists song with Some a => Artists.all a | None => None end.

(** [value || []] *)
Definition orEmpty {A} (xs : option (list A)) : list A :=
  match xs with Some l => l | None => [] end.

(** [links && links.length > 0 ? links[links.length - 1].url : null] *)
Definition lastUrl (links : option (list Link.t)) : option string :=
  match links with
  | Some l =>
      if (0 <? List.length l)%nat
      then option_map Link.url (nth_error l (List.length l - 1))
      else None
  | None => None
  end.

Definition resultOf (bestMatch : Song.t) (artists : string) : SaavnResult.t :=
  {| SaavnResult.source := "saavn";
     SaavnResult.title := Song.name bestMatch;
     SaavnResult.artist := artists;
     SaavnResult.duration := Song.duration bestMatch;
     SaavnResult.thumbnail := lastUrl (Song.image bestMatch);
     SaavnResult.downloadUrl := lastUrl (Song.downloadUrl bestMatch);
     SaavnResult.url := Song.url bestMatch |}.

(** [query = author ? `${title} ${author}` : title], then the search URL. *)
Definition searchUrlOf (title : string) (author : option string) : string :=
  let query :=
    match author with
    | Some a => if isEmpty a then title else title ++ " " ++ a
    | None => title
    end in
  SAAVN_BASE_URL ++ "/api/search/songs?query=" ++ encodeURIComponent query.

(** The separators of the author hint: [/[,&]/]. *)
Definition isSeparator (c : ascii) : bool :=
  (Ascii.eqb c "," || Ascii.eqb c "&")%bool.

(** ** src/unnamed/part_000: composite scoring *)

Module Scored.

Definition STREMIO_INSTANCES := [
  "https://ubiquitous-rugelach-b30b3f.netlify.app";
  "https://super-duper-system.netlify.app"
].

(** [authorLower.split(/[,&]/).map(a => a.trim()).filter(a => a.length > 0)] *)
Definition authorNames (author : string) : list string :=
  filter (fun a => (0 <? String.length a)%nat)
    (map trim (split isSeparator (toLowerCase author))).

(** Lines 82-85: the lower-cased names of the primary, then of the featured
    artists. *)
Definition currentArtists (result : Song.t) : list string :=
  (map toLowerCase (orEmpty (namesOf (primaryOf result)))
   ++ map toLowerCase (orEmpty (namesOf (featuredOf result))))%list.

(** The callback of [currentArtists.some(...)]. *)
Definition artistMatches (authName artist : string) : bool :=
  let cleanAuth := toLowerCase (stripSpaces authName) in
  let cleanArtist := toLowerCase (stripSpaces artist) in
  includes cleanArtist cleanAuth || includes cleanAuth cleanArtist.

(** The counting loop: [for (authName of authorNames) if (found) matchedArtists++]. *)
Definition matchedArtists (names : list string) (result : Song.t) : nat :=
  fold_left
    (fun matched authName =>
       let found := existsb (artistMatches authName) (currentArtists result) in
       if found then S matched else matched)
    names 0%nat.

(** [throw new Error('No matching song found with provided artist/duration')] *)
Definition NoConfidentMatch : Result Song.t :=
  Throw "No matching song found with provided artist/duration".

Section Scoring.

Variable title : string.
Variable names : list string.          (* authorNames *)
Variable targetDuration : float.       (* parseInt(duration) *)

(** Lines 102-113. *)
Definition artistMatchPercent (result : Song.t) : float :=
  Number (Z.of_nat (matchedArtists names result))
  / Number (Z.of_nat (List.length names)).

Definition durationDiff (result : Song.t) : float :=
  match Song.duration result with
  | Some d =>
      if truthyNum (Some d) then Math_abs (d - targetDuration) else 999
  | None => 999
  end.

Definition durationScore (result : Song.t) : float :=
  Math_max 0 (1 - durationDiff result / 60).

Definition titleMatch (result : Song.t) : float :=
  if includes (toLowerCase (Song.name result)) (toLowerCase title)
     || includes (toLowerCase title) (toLowerCase (Song.name result))
  then 1 else 0.5.

Definition score (result : Song.t) : float :=
  (artistMatchPercent result * 10) + (durationScore result * 3)
  + (titleMatch result * 1).

(** The guard of line 118. *)
Definition eligible (result : Song.t) : bool :=
  (0.5 <=? artistMatchPercent result) || (durationDiff result <? 10).

(** One turn of [for (const result of data.data.results)], on the pair
    [(bestMatch, bestScore)]. *)
Definition visit (best : option Song.t * float) (result : Song.t)
    : option Song.t * float :=
  if eligible result then
    if snd best <? score result then (Some result, score result) else best
  else best.

Definition scan (results : list Song.t) : option Song.t * float :=
  fold_left visit results (None, -1).

(** The scoring pass with its rejection (lines 68-130). *)
Definition scoringPass (results : list Song.t) : Result Song.t :=
  let (bestMatch, bestScore) := scan results in
  match bestMatch with
  | None => NoConfidentMatch
  | Some song => if bestScore <? 5 then NoConfidentMatch else Ok song
  end.

End Scoring.

(** Lines 63-135, on the non-empty [results = first :: rest]. *)
Definition selectBest (title : string) (author duration : option string)
    (first : Song.t) (rest : list Song.t) : Result Song.t :=
  match author, duration with
  | Some a, Some d =>
      if negb (isEmpty a) && negb (isEmpty d)
      then scoringPass title (authorNames a) (parseInt d) (first :: rest)
      else Ok first
  | _, _ => Ok first
  end.

(** Lines 147-151. *)
Definition artistsOf (bestMatch : Song.t) : string :=
  let primaryArtists := orEmpty (namesOf (primaryOf bestMatch)) in
  let featuredArtists := orEmpty (namesOf (featuredOf bestMatch)) in
  let allArtistNames := (primaryArtists ++ featuredArtists)%list in
  if (0 <? List.length allArtistNames)%nat then join ", " allArtistNames else "Unknown".

(** [!data.success || !data.data || !data.data.results
     || data.data.results.length === 0] *)
Definition resultsOf (data : Json) : option (Song.t * list Song.t) :=
  match data with
  | JSearch true (Some (Some (first :: rest))) => Some (first, rest)
  | _ => None
  end.

Section Run.
Variable net : Network.

Definition searchJioSaavn (title : string) (author duration : option string)
    : IO SaavnResult.t :=
  (response <- fetchWithTimeout net (searchUrlOf title author) 10000 ;;
   if negb (Http.ok response)
   then throw ("JioSaavn HTTP " ++ ofInteger (Http.status response))%string
   else
     data <- json response ;;
     match resultsOf data with
     | None => throw "No results found in JioSaavn"
     | Some (first, rest) =>
         match selectBest title author duration first rest with
         | Throw e => throw e
         | Ok bestMatch => ret (resultOf bestMatch (artistsOf bestMatch))
         end
     end)%io.

Definition fetchFromStremio := fetchFromStremioOf net STREMIO_INSTANCES.

Definition handler : Request -> IO Response :=
  handlerOf net searchJioSaavn fetchFromStremio.
End Run.

End Scored.

(** ** src/unnamed/part_001: the artist/duration reduce *)

Module Reduced.

Definition STREMIO_INSTANCES := [
  "https://ubiquitous-rugelach-b30b3f.netlify.app";
  "https://super-duper-system.netlify.app"
].

(** [authorLower.split(/[,&]/).map(a => a.trim())]: empty names stay. *)
Definition authorNames (author : string) : list string :=
  map trim (split isSeparator (toLowerCase author)).

Definition diffOf (targetDuration : float) (song : Song.t) : float :=
  match Song.duration song with
  | Some d => if truthyNum (Some d) then Math_abs (d - targetDuration) else 99999
  | None => 99999
  end.

(** The callback of [results.reduce((best, current) => ...)]. *)
Definition better (names : list string) (targetDuration : float)
    (best current : Song.t) : Song.t :=
  let artistMatch :=
    existsb (fun authName =>
               existsb (fun artist => includes artist authName || includes authName artist)
                 (Scored.currentArtists current))
      names in
  let currentDiff := diffOf targetDuration current in
  let bestDiff := diffOf targetDuration best in
  if artistMatch && (currentDiff <? 30) then current
  else if currentDiff <? bestDiff then current
  else best.

Definition selectBest (author duration : option string)
    (first : Song.t) (rest : list Song.t) : Song.t :=
  match author, duration with
  | Some a, Some d =>
      if negb (isEmpty a) && negb (isEmpty d) && (1 <? List.length (first :: rest))%nat
      then fold_left (better (authorNames a) (parseInt d)) rest first
      else first
  | _, _ => first
  end.

(** The artist string and the test on the reply are those of part_000,
    word for word. *)
Definition artistsOf := Scored.artistsOf.
Definition resultsOf := Scored.resultsOf.

Section Run.
Variable net : Network.

Definition searchJioSaavn (title : string) (author duration : option string)
    : IO SaavnResult.t :=
  (response <- fetchWithTimeout net (searchUrlOf title author) 10000 ;;
   if negb (Http.ok response)
   then throw ("JioSaavn HTTP " ++ ofInteger (Http.status response))%string
   else
     data <- json response ;;
     match resultsOf data with
     | None => throw "No results found in JioSaavn"
     | Some (first, rest) =>
         let bestMatch := selectBest author duration first rest in
         ret (resultOf bestMatch (artistsOf bestMatch))
     end)%io.

Definition fetchFromStremio := fetchFromStremioOf net STREMIO_INSTANCES.

Definition handler : Request -> IO Response :=
  handlerOf net searchJioSaavn fetchFromStremio.
End Run.

End Reduced.

(** ** src/api/audio.js: matching on the duration alone *)

Module Audio.

Definition STREMIO_INSTANCES := [
  "https://ubiquitous-rugelach-b30b3f.netlify.app";
  "https://super-duper-system.netlify.app";
  "https://ubiquitous-rugelach-b30b3f.netlify.app"
].

(** The callback of [results.reduce((best, current) => ...)]. *)
Definition closer (targetDuration : float) (best current : Song.t) : Song.t :=
  match Song.duration current, Song.duration best with
  | Some c, Some b =>
      if negb (truthyNum (Some c)) || negb (truthyNum (Some b)) then best
      else
        let currentDiff := Math_abs (c - targetDuration) in
        let bestDiff := Math_abs (b - targetDuration) in
        if currentDiff <? bestDiff then current else best
  | _, _ => best
  end.

(** Lines 57-68. *)
Definition selectBest (duration : option string)
    (first : Song.t) (rest : list Song.t) : Song.t :=
  match duration with
  | Some d =>
      if negb (isEmpty d) && (1 <? List.length (first :: rest))%nat
      then fold_left (closer (parseInt d)) rest first
      else first
  | None => first
  end.

(** [value || next] on a string that may be [undefined]. *)
Definition orString (value : option string) (next : string) : string :=
  match value with
  | Some s => if isEmpty s then next else s
  | None => next
  end.

(** Lines 81-83. *)
Definition artistsOf (bestMatch : Song.t) : string :=
  orString (option_map (join ", ") (namesOf (primaryOf bestMatch)))
    (orString (option_map (join ", ") (namesOf (allOf bestMatch)))
       "Unknown").

(** [!data.success || !data.data.results || data.data.results.length === 0];
    a missing [data.data] raises a TypeError, which fails the search too. *)
Definition resultsOf (data : Json) : option (Song.t * list Song.t) :=
  match data with
  | JSearch true (Some (Some (first :: rest))) => Some (first, rest)
  | _ => None
  end.

Section Run.
Variable net : Network.

Definition searchJioSaavn (title : string) (author duration : option string)
    : IO SaavnResult.t :=
  (response <- fetchWithTimeout net (searchUrlOf title author) 10000 ;;
   if negb (Http.ok response) then throw "JioSaavn search failed"
   else
     data <- json response ;;
     match resultsOf data with
     | None => throw "No results found"
     | Some (first, rest) =>
         let bestMatch := selectBest duration first rest in
         ret (resultOf bestMatch (artistsOf bestMatch))
     end)%io.

Definition fetchFromStremio := fetchFromStremioOf net STREMIO_INSTANCES.

Definition handler : Request -> IO Response :=
  handlerOf net searchJioSaavn fetchFromStremio.
End Run.

End Audio.

(** * The specification side

    The definitions below are written from the words of the specification,
    to be compared with the code above, together with what the statements
    of the properties need. *)

Local Open Scope list_scope.

(** ** Numbers and strings *)

(** A Number that is not [NaN]. *)
Definition numeric (a : float) : bool := (a =? a).

(** Every character of [s] passes the test [p]. *)
Fixpoint allChars (p : ascii -> bool) (s : string) : bool :=
  match s with
  | EmptyString => true
  | String c s' => p c && allChars p s'
  end.

(** A comma, an ampersand or white space. *)
Definition blank (c : ascii) : bool := isSeparator c || isSpace c.

(** ** The composite, in the words of the specification (section 4.2) *)

Module Spec.

(** Step 1: split the hint on [,] or [&]; trim and lower-case each piece;
    drop the empty ones. *)
Definition tokens (authorHint : string) : list string :=
  filter (fun token => negb (isEmpty token))
    (map (fun piece => toLowerCase (trim piece)) (split isSeparator authorHint)).

(** Step 2: the names of the primary then featured artists, lower-cased. *)
Definition artistSet (candidate : Song.t) : list string :=
  map toLowerCase
    (orEmpty (namesOf (primaryOf candidate)) ++ orEmpty (namesOf (featuredOf candidate)))%list.

(** Step 3: with all white space stripped, either contains the other. *)
Definition matches (token artist : string) : bool :=
  includes (stripSpaces artist) (stripSpaces token)
  || includes (stripSpaces token) (stripSpaces artist).

Definition matchedTokenCount (authorHint : string) (candidate : Song.t) : nat :=
  List.length
    (filter (fun token => existsb (matches token) (artistSet candidate)) (tokens authorHint)).

(** Step 4. *)
Definition artistMatchRatio (authorHint : string) (candidate : Song.t) : float :=
  Number (Z.of_nat (matchedTokenCount authorHint candidate))
  / Number (Z.of_nat (List.length (tokens authorHint))).

(** Step 6. *)
Definition durationScore (durationDiffSeconds : float) : float :=
  Math_max 0 (1 - durationDiffSeconds / 60).

(** Step 7. *)
Definition titleScore (titleHint : string) (candidate : Song.t) : float :=
  if includes (toLowerCase (Song.name candidate)) (toLowerCase titleHint)
     || includes (toLowerCase titleHint) (toLowerCase (Song.name candidate))
  then 1 else 0.5.

(** Step 8. *)
Definition composite (ratio durationDiffSeconds title : float) : float :=
  10 * ratio + 3 * durationScore durationDiffSeconds + 1 * title.

End Spec.

(** ** The state of the scan of the scoring pass

    What holds of [(bestMatch, bestScore)] after the songs [seen]:
    [bestScore] is a Number that no eligible song seen beats; [bestMatch],
    when set, is the earliest eligible song seen that reaches it. *)

Section ScanState.

Variable score : Song.t -> float.
Variable eligible : Song.t -> bool.

Definition unbeaten (seen : list Song.t) (bestScore : float) : Prop :=
  forall j c, nth_error seen j = Some c -> eligible c = true ->
              (bestScore <? score c) = false.

Definition earliest (seen : list Song.t) (i : nat) (bestScore : float) : Prop :=
  forall j c, (j < i)%nat -> nth_error seen j = Some c -> eligible c = true ->
              (bestScore <=? score c) = false.

Definition Best (seen : list Song.t) (st : option Song.t * float) : Prop :=
  numeric (snd st) = true
  /\ unbeaten seen (snd st)
  /\ match fst st with
     | None => snd st = -1
     | Some b =>
         exists i, nth_error seen i = Some b /\ eligible b = true
                   /\ snd st = score b /\ earliest seen i (snd st)
     end.

End ScanState.

(** The rejection rule as the specification words it: the pass reports no
    confident match exactly when no song is eligible, or the best eligible
    composite is strictly below 5. *)
Definition stated_rejection_rule (title : string) (names : list string)
    (targetDuration : float) (results : list Song.t) : Prop :=
  let score := Scored.score title names targetDuration in
  let eligible := Scored.eligible names targetDuration in
  Scored.scoringPass title names targetDuration results = Scored.NoConfidentMatch
  <-> ((forall c, In c results -> eligible c = false)
       \/ (exists best, In best results /\ eligible best = true
                        /\ (forall c, In c results -> eligible c = true ->
                                      (score best <? score c) = false)
                        /\ (score best <? 5) = true)).

(** ** The instance adapters (section 4.3) *)

(** The data an outcome yields when it counts as a success: a 2xx status
    and a body that parses.  A network error, a call that hangs, another
    status or a malformed body yield nothing. *)
Definition answer (o : Outcome) : option Json :=
  match o with
  | Responded r => if Http.ok r then Http.body r else None
  | NetworkError _ | Hung => None
  end.

(** The call an adapter makes to an instance. *)
Definition callOf (base : string -> string) (videoId instance : string) : Call :=
  {| callUrl := (base instance ++ "/api/v1/videos/" ++ videoId)%string;
     callTimeout := 8000 |}.

(** The walk over the instances, as the specification describes it: the
    instances are called in the order of the list; the first one that
    answers ends the walk; one that does not is skipped; the walk fails when
    the list is exhausted. *)
Inductive Walk (net : Network) (source : string) (base : string -> string)
    (exhausted videoId : string)
  : list string -> Trace -> Result InstanceResult.t -> Trace -> Prop :=
| walk_exhausted t :
    Walk net source base exhausted videoId [] t (Throw exhausted) t
| walk_answer instance rest t data :
    answer (net t (callOf base videoId instance)) = Some data ->
    Walk net source base exhausted videoId (instance :: rest) t
      (Ok {| InstanceResult.source := source;
             InstanceResult.instance := base instance;
             InstanceResult.data := data |})
      (t ++ [Fetch (callOf base videoId instance)])
| walk_skip instance rest t r t' :
    answer (net t (callOf base videoId instance)) = None ->
    Walk net source base exhausted videoId rest
      (t ++ [Fetch (callOf base videoId instance)]) r t' ->
    Walk net source base exhausted videoId (instance :: rest) t r t'.

(** An adapter only adds calls to the trace. *)
Definition quiet {A} (m : IO A) : Prop :=
  forall t, exists calls, snd (m t) = t ++ map Fetch calls.

(** ** The orchestrator (section 4.4) *)

(** The strategies a trace announces, in order. *)
Definition strategiesOf (t : Trace) : list Strategy :=
  flat_map (fun e => match e with Trying s => [s] | Fetch _ => [] end) t.

Definition mapIO {A B} (f : A -> B) (m : IO A) : IO B :=
  bind m (fun a => ret (f a)).

(** The strategies of a request, in priority order, each with the run that
    yields the body of its success: the metadata search when a title is
    given, then the two instance pools. *)
Definition planOf (net : Network)
    (searchJioSaavn : string -> option string -> option string -> IO SaavnResult.t)
    (fetchFromStremio : string -> IO InstanceResult.t)
    (q : Query) (videoId : string) : list (Strategy * IO Body) :=
  match title q with
  | Some titleText =>
      if isEmpty titleText then []
      else [(Saavn, mapIO SaavnBody (searchJioSaavn titleText (author q) (duration q)))]
  | None => []
  end
  ++ [ (Stremio, mapIO InstanceBody (fetchFromStremio videoId));
       (Invidious, mapIO InstanceBody (fetchFromInvidious net videoId)) ].

Definition notFound (q : Query) : Response :=
  {| status := 404;
     body := NotFoundBody "Could not fetch audio from any source"
               (if truthy (title q) then "failed" else "skipped") "failed" "failed" |}.

(** The state machine of the specification: the strategies are entered in
    the order of the plan; a success ends the request with status 200 and
    the body of that strategy; a failure moves on to the next strategy; the
    request ends with [exhausted] when the plan is exhausted. *)
Inductive Fallback (exhausted : Response)
  : list (Strategy * IO Body) -> Trace -> Response -> Trace -> Prop :=
| fallback_exhausted t :
    Fallback exhausted [] t exhausted t
| fallback_success s run rest t found t' :
    run (t ++ [Trying s]) = (Ok found, t') ->
    Fallback exhausted ((s, run) :: rest) t {| status := 200; body := found |} t'
| fallback_next s run rest t e t' response t'' :
    run (t ++ [Trying s]) = (Throw e, t') ->
    Fallback exhausted rest t' response t'' ->
    Fallback exhausted ((s, run) :: rest) t response t''.

(** Every strategy of the plan fails, one after the other. *)
Inductive AllFail : list (Strategy * IO Body) -> Trace -> Trace -> Prop :=
| allFail_nil t : AllFail [] t t
| allFail_cons s run rest t e t' t'' :
    run (t ++ [Trying s]) = (Throw e, t') ->
    AllFail rest t' t'' ->
    AllFail ((s, run) :: rest) t t''.

(** The strategies of a request: the metadata search when a title is
    given, then Stremio, then Invidious. *)
Definition tagsOf (q : Query) : list Strategy :=
  (if truthy (title q) then [Saavn] else []) ++ [Stremio; Invidious].

(** The run of a request that reaches the strategies: it is a run of the
    state machine on the plan; the strategies it enters are the first [k] of
    the plan, [k] at least 1, none twice; and it ends either exhausted, all
    strategies entered, or with status 200 and the body of the [k]-th
    strategy, which succeeded. *)
Definition follows_plan (handler : Request -> IO Response)
    (plan : list (Strategy * IO Body)) (req : Request) (t : Trace) : Prop :=
  let q := query req in
  exists response t' k events,
    handler req t = (Ok response, t')
    /\ map fst plan = tagsOf q
    /\ Fallback (notFound q) plan t response t'
    /\ (0 < k <= List.length (tagsOf q))%nat
    /\ t' = t ++ events
    /\ strategiesOf events = firstn k (tagsOf q)
    /\ NoDup (strategiesOf events)
    /\ ((response = notFound q /\ k = List.length (tagsOf q))
        \/ (exists s run found t0 t1,
              nth_error plan (k - 1) = Some (s, run)
              /\ run t0 = (Ok found, t1)
              /\ response = {| status := 200; body := found |})).

(** ** The three versions side by side *)

Inductive Version := ApiAudio | Part000 | Part001.

Definition searchAt (v : Version) (net : Network)
    : string -> option string -> option string -> IO SaavnResult.t :=
  match v with
  | ApiAudio => Audio.searchJioSaavn net
  | Part000 => Scored.searchJioSaavn net
  | Part001 => Reduced.searchJioSaavn net
  end.

Definition stremioAt (v : Version) (net : Network) : string -> IO InstanceResult.t :=
  match v with
  | ApiAudio => Audio.fetchFromStremio net
  | Part000 => Scored.fetchFromStremio net
  | Part001 => Reduced.fetchFromStremio net
  end.

Definition handlerAt (v : Version) (net : Network) : Request -> IO Response :=
  match v with
  | ApiAudio => Audio.handler net
  | Part000 => Scored.handler net
  | Part001 => Reduced.handler net
  end.

Definition planAt (v : Version) (net : Network) : Query -> string -> list (Strategy * IO Body) :=
  planOf net (searchAt v net) (stremioAt v net).

(** The selection of each version, on the non-empty results
    [first :: rest]. *)
Definition selectorAt (v : Version)
    : string -> option string -> option string -> Song.t -> list Song.t -> Result Song.t :=
  match v with
  | ApiAudio => fun _ _ duration first rest => Ok (Audio.selectBest duration first rest)
  | Part000 => Scored.selectBest
  | Part001 => fun _ author duration first rest =>
                 Ok (Reduced.selectBest author duration first rest)
  end.

Definition artistsAt (v : Version) : Song.t -> string :=
  match v with
  | ApiAudio => Audio.artistsOf
  | Part000 => Scored.artistsOf
  | Part001 => Reduced.artistsOf
  end.

(** The rule of the specification: without an author hint or without a
    duration hint, the first candidate. *)
Definition stated_first_candidate_rule (v : Version) : Prop :=
  forall title author duration first rest,
    truthy author = false \/ truthy duration = false ->
    selectorAt v title author duration first rest = Ok first.

(** The last entry of a list, when there is one. *)
Definition lastEntry {A} (l : list A) : option A := hd_error (rev l).

(** The derivation of the specification: the URLs come from the last
    entries of the two lists of variants, the artist string joins the
    primary then the featured names, and is "Unknown" when there is none. *)
Definition stated_derivation_rule (v : Version) : Prop :=
  forall song,
    let result := resultOf song (artistsAt v song) in
    let names := orEmpty (namesOf (primaryOf song)) ++ orEmpty (namesOf (featuredOf song)) in
    SaavnResult.downloadUrl result
    = option_map Link.url (lastEntry (orEmpty (Song.downloadUrl song)))
    /\ SaavnResult.thumbnail result
       = option_map Link.url (lastEntry (orEmpty (Song.image song)))
    /\ SaavnResult.artist result
       = match names with [] => "Unknown" | _ => join ", " names end.

(** ** Sample data *)

Definition lennon : Artist.t := {| Artist.name := "John Lennon" |}.

Definition imagine : Song.t :=
  {| Song.name := "Imagine";
     Song.artists := Some {| Artists.primary := Some [lennon];
                             Artists.featured := Some [];
                             Artists.all := Some [lennon] |};
     Song.duration := Some 181;
     Song.downloadUrl :=
       Some [ {| Link.quality := "12kbps"; Link.url := "https://cdn.example/imagine_12.mp4" |};
              {| Link.quality := "320kbps"; Link.url := "https://cdn.example/imagine_320.mp4" |} ];
     Song.image :=
       Some [ {| Link.quality := "50x50"; Link.url := "https://cdn.example/imagine_50.jpg" |};
              {| Link.quality := "500x500"; Link.url := "https://cdn.example/imagine_500.jpg" |} ];
     Song.url := Some "https://www.jiosaavn.com/song/imagine" |}.

(** The same recording listed a second time, under another page. *)
Definition imagineAgain : Song.t :=
  {| Song.name := Song.name imagine;
     Song.artists := Song.artists imagine;
     Song.duration := Song.duration imagine;
     Song.downloadUrl := Song.downloadUrl imagine;
     Song.image := Song.image imagine;
     Song.url := Some "https://www.jiosaavn.com/song/imagine-remastered" |}.

(** A concert recording of 200 seconds. *)
Definition imagineLive : Song.t :=
  {| Song.name := "Imagine (Live)";
     Song.artists := Song.artists imagine;
     Song.duration := Some 200;
     Song.downloadUrl := Song.downloadUrl imagine;
     Song.image := Song.image imagine;
     Song.url := Some "https://www.jiosaavn.com/song/imagine-live" |}.

(** A song with a featured artist. *)
Definition ono : Artist.t := {| Artist.name := "Yoko Ono" |}.

Definition happyXmas : Song.t :=
  {| Song.name := "Happy Xmas (War Is Over)";
     Song.artists := Some {| Artists.primary := Some [lennon];
                             Artists.featured := Some [ono];
                             Artists.all := Some [lennon; ono] |};
     Song.duration := Some 213;
     Song.downloadUrl := Song.downloadUrl imagine;
     Song.image := None;
     Song.url := Some "https://www.jiosaavn.com/song/happy-xmas" |}.

(** No instance and no service ever answers. *)
Definition silent : Network := fun _ _ => Hung.

(** Only the metadata service answers, with two listings of "Imagine". *)
Definition saavnUp : Network :=
  fun _ c =>
    if prefix SAAVN_BASE_URL (callUrl c)
    then Responded {| Http.status := 200;
                      Http.body := Some (JSearch true (Some (Some [imagine; imagineAgain]))) |}
    else Hung.

Definition imagineRequest : Request :=
  {| method := "GET";
     query := {| id := Some "abc123"; title := Some "Imagine";
                 author := Some "John Lennon"; duration := Some "183" |} |}.

Definition idOnlyRequest : Request :=
  {| method := "GET";
     query := {| id := Some "abc123"; title := None; author := None; duration := None |} |}.

Definition noIdRequest : Request :=
  {| method := "GET";
     query := {| id := None; title := Some "Imagine";
                 author := Some "John Lennon"; duration := Some "183" |} |}.

(** ** Notions for the properties of the rest of the code *)

(** A song whose duration the code can use: present, not 0 and not [NaN]. *)
Definition usable (song : Song.t) : bool := truthyNum (Song.duration song).

(** The distance of a song's duration to the target. *)
Definition gap (targetDuration : float) (song : Song.t) : float :=
  match Song.duration song with
  | Some d => Math_abs (d - targetDuration)
  | None => NaN
  end.

(** The test [artistMatch] of part_001 (lines 82-86, inside its reduce). *)
Definition artistMatchOf (names : list string) (song : Song.t) : bool :=
  existsb (fun authName =>
             existsb (fun artist => includes artist authName || includes authName artist)
               (Scored.currentArtists song))
    names.

(** "Imagine" listed without a duration. *)
Definition imagineUntimed : Song.t :=
  {| Song.name := Song.name imagine;
     Song.artists := Song.artists imagine;
     Song.duration := None;
     Song.downloadUrl := Song.downloadUrl imagine;
     Song.image := Song.image imagine;
     Song.url := Some "https://www.jiosaavn.com/song/imagine-untimed" |}.

(** A song whose only artist has a blank name. *)
Definition anonymousSong : Song.t :=
  {| Song.name := "Untitled";
     Song.artists := Some {| Artists.primary := Some [ {| Artist.name := " " |} ];
                             Artists.featured := None;
                             Artists.all := None |};
     Song.duration := Some 60;
     Song.downloadUrl := None;
     Song.image := None;
     Song.url := None |}.

(** The state of the nearest-duration reduce of src/api/audio.js: after the
    songs [seen], [best] is usable, no usable song seen is strictly nearer to
    the target, and no usable song seen before it is as near. *)
Definition Nearest (targetDuration : float) (seen : list Song.t) (best : Song.t) : Prop :=
  usable best = true
  /\ exists i,
       nth_error seen i = Some best
       /\ (forall j c, nth_error seen j = Some c -> usable c = true ->
                       (gap targetDuration c <? gap targetDuration best) = false)
       /\ (forall j c, (j < i)%nat -> nth_error seen j = Some c -> usable c = true ->
                       (gap targetDuration c <=? gap targetDuration best) = false).

(** The call of the metadata search. *)
Definition searchCall (title : string) (author : option string) : Call :=
  {| callUrl := searchUrlOf title author; callTimeout := 10000 |}.

(** The results an outcome of the search call carries, when it is a 2xx
    reply that parses, says [success] and lists at least one song. *)
Definition reply (o : Outcome) : option (Song.t * list Song.t) :=
  match answer o with
  | Some data => Scored.resultsOf data
  | None => None
  end.

(** The calls of an adapter to the instances [l], in order. *)
Definition callsTo (base : string -> string) (videoId : string) (l : list string) : Trace :=
  map (fun i => Fetch (callOf base videoId i)) l.

(** From the trace [t] on, every instance of [l] is called in turn and none
    answers. *)
Definition AllSkipped (net : Network) (base : string -> string) (videoId : string)
    (t : Trace) (l : list string) : Prop :=
  forall before instance after,
    l = before ++ instance :: after ->
    answer (net (t ++ callsTo base videoId before) (callOf base videoId instance)) = None.

(** The outbound calls of a trace. *)
Definition callsOf (t : Trace) : list Call :=
  flat_map (fun e => match e with Fetch c => [c] | Trying _ => [] end) t.

(** The two budgets the code hands to [fetchWithTimeout]. *)
Definition budgeted (c : Call) : Prop :=
  callTimeout c = 8000%Z \/ callTimeout c = 10000%Z.

(** A computation that only adds calls to the trace, at most [n] of them,
    each with one of the two budgets. *)
Definition emits (n : nat) {A} (m : IO A) : Prop :=
  forall t, exists calls,
    snd (m t) = t ++ map Fetch calls
    /\ (List.length calls <= n)%nat
    /\ Forall budgeted calls.

Definition stremioListAt (v : Version) : list string :=
  match v with
  | ApiAudio => Audio.STREMIO_INSTANCES
  | Part000 => Scored.STREMIO_INSTANCES
  | Part001 => Reduced.STREMIO_INSTANCES
  end.

(** A character that stands for itself inside a query string, or the sign
    of an escape. *)
Definition urlSafe (c : ascii) : bool := unreserved c || Ascii.eqb c "%".

(** The third Invidious instance answers with a document, nothing else does. *)
Definition thirdUp : Network :=
  fun _ c =>
    if (callUrl c =? "https://invidious.reallyaweso.me/api/v1/videos/abc123")%string
    then Responded {| Http.status := 200; Http.body := Some (JOther "{}") |}
    else Responded {| Http.status := 502; Http.body := None |}.

(** [part] is what a walk cut short leaves of [whole]: its first entries. *)
Definition prefixOf {A} (part whole : list A) : Prop :=
  exists k, part = firstn k whole.

(** A computation that only adds to the trace the first calls of the list
    [allowed], in order. *)
Definition callsWithin (allowed : list Call) {A} (m : IO A) : Prop :=
  forall t, exists k, snd (m t) = t ++ map Fetch (firstn k allowed).

(** The [id] of a query, as the adapters receive it. *)
Definition idOf (q : Query) : string :=
  match id q with Some videoId => videoId | None => EmptyString end.

(** The calls to the Stremio list of a version, and to the Invidious list,
    one for each entry and in the order of the list. *)
Definition stremioCalls (v : Version) (videoId : string) : list Call :=
  map (callOf (fun i => i) videoId) (stremioListAt v).

Definition invidiousCalls (videoId : string) : list Call :=
  map (callOf (fun i => "https://" ++ i)%string videoId) INVIDIOUS_INSTANCES.

(** The calls the strategies of a request may make, strategy by strategy. *)
Definition allowedCalls (v : Version) (q : Query) (videoId : string) : list (list Call) :=
  match title q with
  | Some titleText =>
      if isEmpty titleText then [] else [[searchCall titleText (author q)]]
  | None => []
  end
  ++ [stremioCalls v videoId; invidiousCalls videoId].

(** * Properties *)

(** ** The order of Numbers

    [<] and [<=] on Numbers are the comparisons of IEEE 754: a total
    preorder on the Numbers that are not [NaN], and [false] as soon as one
    side is [NaN]. *)

Module FloatOrder.

Ltac cmp_cases :=
  repeat match goal with
  | |- context [Z.compare ?a ?b] => destruct (Z.compare_spec a b)
  | H : context [Z.compare ?a ?b] |- _ => destruct (Z.compare_spec a b)
  | |- context [Pos.compare_cont Eq ?a ?b] =>
      change (Pos.compare_cont Eq a b) with (Pos.compare a b);
      destruct (Pos.compare_spec a b)
  | H : context [Pos.compare_cont Eq ?a ?b] |- _ =>
      change (Pos.compare_cont Eq a b) with (Pos.compare a b) in H;
      destruct (Pos.compare_spec a b)
  end.

Ltac sf_cases :=
  intros;
  repeat match goal with
  | x : spec_float |- _ => destruct x as [[]|[]| |[] ? ?]
  end;
  unfold SFltb, SFleb, SFeqb in *; simpl in *;
  try discriminate; try reflexivity; try tauto;
  cmp_cases; simpl in *; subst;
  try discriminate; try reflexivity; try lia; try tauto.

Lemma SFleb_ltb_trans x y z :
  SFleb x y = true -> SFltb y z = true -> SFltb x z = true.
Proof. sf_cases. Qed.

Lemma SFltb_leb_trans x y z :
  SFltb x y = true -> SFleb y z = true -> SFltb x z = true.
Proof. sf_cases. Qed.

Lemma SFleb_trans x y z :
  SFleb x y = true -> SFleb y z = true -> SFleb x z = true.
Proof. sf_cases. Qed.

Lemma SFltb_not_leb x y : SFltb x y = true -> SFleb y x = false.
Proof. sf_cases. Qed.

Lemma SFleb_not_ltb x y : SFleb x y = true -> SFltb y x = false.
Proof. sf_cases. Qed.

Lemma SFltb_total x y :
  SFltb x y = false -> SFeqb x x = true -> SFeqb y y = true -> SFleb y x = true.
Proof. sf_cases. Qed.

Lemma SFltb_numeric x y : SFltb x y = true -> SFeqb x x = true /\ SFeqb y y = true.
Proof. sf_cases. Qed.

Lemma SFleb_numeric x y : SFleb x y = true -> SFeqb x x = true /\ SFeqb y y = true.
Proof. sf_cases. Qed.

Lemma SFltb_leb x y : SFltb x y = true -> SFleb x y = true.
Proof. sf_cases. Qed.

Ltac to_spec :=
  unfold numeric in *;
  rewrite ?FloatAxioms.ltb_spec, ?FloatAxioms.leb_spec, ?FloatAxioms.eqb_spec in *.

Lemma leb_ltb_trans a b c : (a <=? b) = true -> (b <? c) = true -> (a <? c) = true.
Proof. to_spec. apply SFleb_ltb_trans. Qed.

Lemma ltb_leb_trans a b c : (a <? b) = true -> (b <=? c) = true -> (a <? c) = true.
Proof. to_spec. apply SFltb_leb_trans. Qed.

Lemma leb_trans a b c : (a <=? b) = true -> (b <=? c) = true -> (a <=? c) = true.
Proof. to_spec. apply SFleb_trans. Qed.

Lemma ltb_not_leb a b : (a <? b) = true -> (b <=? a) = false.
Proof. to_spec. apply SFltb_not_leb. Qed.

Lemma leb_not_ltb a b : (a <=? b) = true -> (b <? a) = false.
Proof. to_spec. apply SFleb_not_ltb. Qed.

Lemma ltb_total a b :
  (a <? b) = false -> numeric a = true -> numeric b = true -> (b <=? a) = true.
Proof. to_spec. apply SFltb_total. Qed.

Lemma ltb_numeric a b : (a <? b) = true -> numeric a = true /\ numeric b = true.
Proof. to_spec. apply SFltb_numeric. Qed.

Lemma leb_numeric a b : (a <=? b) = true -> numeric a = true /\ numeric b = true.
Proof. to_spec. apply SFleb_numeric. Qed.

Lemma ltb_leb a b : (a <? b) = true -> (a <=? b) = true.
Proof. to_spec. apply SFltb_leb. Qed.

Lemma numeric_is_nan a : numeric a = negb (is_nan a).
Proof. unfold numeric, is_nan. now rewrite negb_involutive. Qed.

(** [NaN] is contagious, and above nothing. *)
Lemma add_nan_l a : nan + a = nan.
Proof. apply Prim2SF_inj. rewrite add_spec. reflexivity. Qed.

Lemma ltb_nan_r a : (a <? nan) = false.
Proof. rewrite FloatAxioms.ltb_spec. simpl. now destruct (Prim2SF a). Qed.

End FloatOrder.

(** ** The scan of the scoring pass (part_000)

    After any prefix [seen] of the results, [bestScore] is a Number that no
    eligible song of the prefix beats; [bestMatch], when set, is the
    earliest eligible song of the prefix that reaches it. *)

Section ScanInvariant.

Import FloatOrder.

Variable title : string.
Variable names : list string.
Variable targetDuration : float.

Let score := Scored.score title names targetDuration.
Let eligible := Scored.eligible names targetDuration.
Let visit := Scored.visit title names targetDuration.

Lemma nth_error_snoc (seen : list Song.t) r j c :
  nth_error (seen ++ [r]) j = Some c ->
  (j < List.length seen)%nat /\ nth_error seen j = Some c
  \/ j = List.length seen /\ c = r.
Proof.
  intros H. destruct (Nat.lt_ge_cases j (List.length seen)) as [Hlt | Hge].
  - left. split; [assumption|]. now rewrite nth_error_app1 in H.
  - right. rewrite nth_error_app2 in H by assumption.
    destruct (j - List.length seen)%nat as [|k] eqn:E; simpl in H.
    + split; [lia | congruence].
    + now destruct k.
Qed.

Lemma Best_start : Best score eligible [] (None, -1).
Proof.
  repeat split.
  intros j c H. now destruct j.
Qed.

Lemma Best_visit seen st r : Best score eligible seen st -> Best score eligible (seen ++ [r]) (visit st r).
Proof.
  intros (Hnum & Hun & Hbest). destruct st as [bestMatch bestScore]. simpl in *.
  unfold visit, Scored.visit. fold eligible. fold score. unfold Best, unbeaten, earliest.
  cbn [fst snd].
  destruct (eligible r) eqn:Her; [destruct (bestScore <? score r) eqn:Hlt|];
    cbn [fst snd].
  - (* the new song takes over *)
      assert (Hnew : forall j c, nth_error seen j = Some c -> eligible c = true ->
                                 (score r <=? score c) = false).
      { intros j c Hj Hc. destruct (score r <=? score c) eqn:Hle; [|reflexivity].
        pose proof (Hun j c Hj Hc) as Hu.
        rewrite (ltb_leb_trans _ _ _ Hlt Hle) in Hu. discriminate. }
      split; [apply (ltb_numeric _ _ Hlt)|]. split.
      * intros j c Hj Hc. apply nth_error_snoc in Hj as [[_ Hj] | [_ ->]].
        -- destruct (score r <? score c) eqn:E; [|reflexivity].
           apply ltb_leb in E. now rewrite (Hnew j c Hj Hc) in E.
        -- apply leb_not_ltb.
           apply ltb_total; try apply (ltb_numeric _ _ Hlt).
           destruct (score r <? score r) eqn:E; [|reflexivity].
           apply ltb_not_leb in E as E'. apply ltb_leb in E. congruence.
      * exists (List.length seen). repeat split.
        -- rewrite nth_error_app2 by lia. now rewrite Nat.sub_diag.
        -- assumption.
        -- intros j c Hji Hj Hc. rewrite nth_error_app1 in Hj by assumption.
           eauto.
  - (* the best so far stays *)
      split; [assumption|]. split.
      * intros j c Hj Hc. apply nth_error_snoc in Hj as [[_ Hj] | [_ ->]]; eauto.
      * destruct bestMatch as [b|]; [|assumption].
        destruct Hbest as (i & Hi & Hb & Hs & Hearly).
        assert (i < List.length seen)%nat by (apply nth_error_Some; congruence).
        exists i. repeat split; try assumption.
        -- now rewrite nth_error_app1.
        -- intros j c Hji Hj Hc. rewrite nth_error_app1 in Hj by lia. eauto.
  - (* not eligible: skipped *)
    split; [assumption|]. split.
    + intros j c Hj Hc. apply nth_error_snoc in Hj as [[_ Hj] | [_ ->]]; eauto.
      congruence.
    + destruct bestMatch as [b|]; [|assumption].
      destruct Hbest as (i & Hi & Hb & Hs & Hearly).
      assert (i < List.length seen)%nat by (apply nth_error_Some; congruence).
      exists i. repeat split; try assumption.
      * now rewrite nth_error_app1.
      * intros j c Hji Hj Hc. rewrite nth_error_app1 in Hj by lia. eauto.
Qed.

Lemma Best_fold rest : forall seen st,
  Best score eligible seen st -> Best score eligible (seen ++ rest) (fold_left visit rest st).
Proof.
  induction rest as [|r rest IH]; intros seen st H; simpl.
  - now rewrite app_nil_r.
  - replace (seen ++ r :: rest)%list with ((seen ++ [r]) ++ rest)%list
      by now rewrite <- app_assoc.
    apply IH, Best_visit, H.
Qed.

Lemma Best_scan results : Best score eligible results (Scored.scan title names targetDuration results).
Proof. apply (Best_fold results [] (None, -1) Best_start). Qed.

End ScanInvariant.

(** ** The scoring pass: rejection and selection (part_000) *)

Section ScoringPass.

Import FloatOrder.

Variable title : string.
Variable names : list string.
Variable targetDuration : float.

Let score := Scored.score title names targetDuration.
Let eligible := Scored.eligible names targetDuration.
Let scoringPass := Scored.scoringPass title names targetDuration.

(** What the pass returns, read off the final [(bestMatch, bestScore)]. *)
Lemma scoringPass_cases results :
  let st := Scored.scan title names targetDuration results in
  (scoringPass results = Scored.NoConfidentMatch
   /\ (fst st = None \/ (snd st <? 5) = true))
  \/ (exists song, scoringPass results = Ok song
                   /\ fst st = Some song /\ (snd st <? 5) = false).
Proof.
  unfold scoringPass, Scored.scoringPass.
  destruct (Scored.scan title names targetDuration results) as [[song|] bestScore];
    cbn [fst snd].
  - destruct (bestScore <? 5) eqn:E.
    + left. split; [reflexivity | now right].
    + right. exists song. repeat split.
  - left. split; [reflexivity | now left].
Qed.

(** The pass rejects exactly when no eligible song scores at least 5. *)
Lemma rejects_iff results :
  scoringPass results = Scored.NoConfidentMatch
  <-> (forall c, In c results -> eligible c = true -> (5 <=? score c) = false).
Proof.
  pose proof (Best_scan title names targetDuration results) as (Hnum & Hun & Hbest).
  destruct (scoringPass_cases results) as [[Hr Hst] | (song & Hr & Hfst & Hsnd)].
  - split; [intros _ | intros _; exact Hr].
    intros c Hin Hc. apply In_nth_error in Hin as [j Hj].
    specialize (Hun j c Hj Hc). fold score in Hun.
    destruct (5 <=? score c) eqn:Hle; [|reflexivity].
    assert (Hlow : (snd (Scored.scan title names targetDuration results) <? 5) = true).
    { destruct Hst as [Hnone | Hlow]; [|assumption].
      rewrite Hnone in Hbest. rewrite Hbest. reflexivity. }
    rewrite (ltb_leb_trans _ _ _ Hlow Hle) in Hun. discriminate.
  - split.
    + intros H. rewrite Hr in H. discriminate.
    + intros H. exfalso.
      rewrite Hfst in Hbest. destruct Hbest as (i & Hi & Hel & Hs & _).
      apply nth_error_In in Hi. specialize (H song Hi Hel).
      fold score in Hs. rewrite <- Hs in H.
      assert (Hfive : numeric 5 = true) by reflexivity.
      rewrite (ltb_total _ _ Hsnd Hnum Hfive) in H. discriminate.
Qed.

(** The song returned is the earliest eligible one that no eligible song
    beats. *)
Lemma selected_is_first_best results song :
  scoringPass results = Ok song ->
  exists i,
    nth_error results i = Some song
    /\ eligible song = true
    /\ (forall j c, nth_error results j = Some c -> eligible c = true ->
                    (score song <? score c) = false)
    /\ (forall j c, (j < i)%nat -> nth_error results j = Some c -> eligible c = true ->
                    (score song <=? score c) = false).
Proof.
  intros Hsel.
  pose proof (Best_scan title names targetDuration results) as (Hnum & Hun & Hbest).
  destruct (scoringPass_cases results) as [[Hr _] | (song' & Hr & Hfst & _)].
  - rewrite Hr in Hsel. discriminate.
  - rewrite Hr in Hsel. injection Hsel as ->.
    rewrite Hfst in Hbest. destruct Hbest as (i & Hi & Hel & Hs & Hearly).
    fold score in Hs. exists i. repeat split; try assumption.
    + intros j c Hj Hc. rewrite <- Hs. exact (Hun j c Hj Hc).
    + intros j c Hji Hj Hc. rewrite <- Hs. exact (Hearly j c Hji Hj Hc).
Qed.

End ScoringPass.

(** ** Author hints without a name (part_000) *)

Ltac each_char c :=
  destruct c as [[] [] [] [] [] [] [] []]; vm_compute; try discriminate; try reflexivity.

Lemma lowerChar_blank c : blank c = true -> lowerChar c = c.
Proof. each_char c. Qed.

Lemma toLowerCase_blank s : allChars blank s = true -> toLowerCase s = s.
Proof.
  induction s as [|c s IH]; simpl; [reflexivity|].
  intros [Hc Hs]%andb_true_iff. now rewrite (lowerChar_blank c Hc), IH.
Qed.

Lemma split_blank s :
  allChars blank s = true ->
  Forall (fun piece => allChars isSpace piece = true) (split isSeparator s).
Proof.
  induction s as [|c s IH]; simpl.
  - intros _. now constructor.
  - intros [Hc Hs]%andb_true_iff. specialize (IH Hs).
    destruct (isSeparator c) eqn:Hsep.
    + now constructor.
    + assert (Hsp : isSpace c = true) by (unfold blank in Hc; now rewrite Hsep in Hc).
      destruct (split isSeparator s) as [|piece pieces].
      * constructor; [simpl; now rewrite Hsp | constructor].
      * inversion IH; subst. constructor; [simpl; now rewrite Hsp | assumption].
Qed.

Lemma trim_spaces s : allChars isSpace s = true -> trim s = EmptyString.
Proof.
  unfold trim. induction s as [|c s IH]; simpl; [reflexivity|].
  intros [Hc Hs]%andb_true_iff. rewrite Hc. now apply IH.
Qed.

Lemma authorNames_blank author :
  allChars blank author = true -> Scored.authorNames author = [].
Proof.
  intros H. unfold Scored.authorNames. rewrite (toLowerCase_blank author H).
  induction (split_blank author H) as [|piece pieces Hp _ IH]; simpl; [reflexivity|].
  now rewrite (trim_spaces piece Hp).
Qed.

Lemma blank_lowerChar c : blank (lowerChar c) = blank c.
Proof. each_char c. Qed.

Lemma allChars_blank_toLowerCase s :
  allChars blank (toLowerCase s) = allChars blank s.
Proof. induction s as [|c s IH]; simpl; [reflexivity|]. now rewrite blank_lowerChar, IH. Qed.

Lemma trim_nonspace s : allChars isSpace s = false -> isEmpty (trim s) = false.
Proof.
  unfold trim. induction s as [|c s IH]; simpl; [discriminate|].
  destruct (isSpace c) eqn:Hc; simpl; [exact IH|].
  intros _. now rewrite Hc.
Qed.

Lemma split_nonblank s :
  allChars blank s = false ->
  existsb (fun piece => negb (allChars isSpace piece)) (split isSeparator s) = true.
Proof.
  induction s as [|c s IH]; simpl; [discriminate|]. unfold blank at 1.
  destruct (isSeparator c) eqn:Hsep; simpl; [exact IH|].
  destruct (isSpace c) eqn:Hsp; simpl.
  - intros H. specialize (IH H).
    destruct (split isSeparator s) as [|piece pieces]; [discriminate|].
    simpl in *. now rewrite Hsp.
  - intros _. destruct (split isSeparator s) as [|piece pieces]; simpl; now rewrite Hsp.
Qed.

(** The hints without a name are exactly those made of commas, ampersands
    and white space. *)
Lemma authorNames_nil_iff author :
  Scored.authorNames author = [] <-> allChars blank author = true.
Proof.
  split; [|apply authorNames_blank].
  intros Hnil. destruct (allChars blank author) eqn:Hb; [reflexivity|]. exfalso.
  rewrite <- allChars_blank_toLowerCase in Hb. apply split_nonblank in Hb.
  apply existsb_exists in Hb as (piece & Hin & Hpiece).
  apply negb_true_iff, trim_nonspace in Hpiece.
  assert (Htoken : In (trim piece) (Scored.authorNames author)).
  { unfold Scored.authorNames. apply filter_In. split.
    - now apply in_map.
    - destruct (trim piece); [discriminate | reflexivity]. }
  now rewrite Hnil in Htoken.
Qed.

(** Without a name to look for, every composite is [NaN]. *)
Lemma score_no_names title targetDuration (song : Song.t) :
  Scored.score title [] targetDuration song = nan.
Proof.
  unfold Scored.score, Scored.artistMatchPercent. simpl.
  change (Number 0 / Number 0 * 10) with nan.
  now rewrite !FloatOrder.add_nan_l.
Qed.

Lemma scan_no_names title targetDuration results : forall st,
  fold_left (Scored.visit title [] targetDuration) results st = st.
Proof.
  induction results as [|song results IH]; intros st; simpl; [reflexivity|].
  rewrite <- (IH st) at 2. f_equal.
  unfold Scored.visit. rewrite score_no_names, FloatOrder.ltb_nan_r.
  now destruct (Scored.eligible [] targetDuration song).
Qed.

Lemma scoringPass_no_names title targetDuration results :
  Scored.scoringPass title [] targetDuration results = Scored.NoConfidentMatch.
Proof.
  unfold Scored.scoringPass, Scored.scan. now rewrite scan_no_names.
Qed.

(** ** Claims about the scoring pass *)

(** C1, as stated, fails: with the author hint [","] (no name in it) and the
    duration hint ["181"], the song "Imagine" (181 s) is eligible through its
    duration, its composite is [NaN], which is not below 5, and yet the pass
    reports no confident match. *)
Lemma stated_rejection_rule_fails :
  ~ stated_rejection_rule "Imagine" (Scored.authorNames ",") (parseInt "181") [imagine].
Proof.
  intros [H _]. specialize (H eq_refl). destruct H as [H | (best & Hin & _ & _ & Hlow)].
  - specialize (H imagine (or_introl eq_refl)). vm_compute in H. discriminate.
  - destruct Hin as [<- | []]. vm_compute in Hlow. discriminate.
Qed.

(** C1, amended: in the full scoring pass a song is eligible exactly when
    its artist match ratio is at least 0.5 or its duration difference is
    strictly below 10, and only an eligible song of the results is returned;
    the pass reports no confident match exactly when no eligible song has a
    composite of at least 5, that is when no song is eligible or no eligible
    composite reaches 5 (a [NaN] composite never does); so a song with ratio
    at least 0.5 and composite at least 5 rules the rejection out. *)
Theorem scoring_rejection_rule (title : string) (names : list string)
    (targetDuration : float) (results : list Song.t) :
  let score := Scored.score title names targetDuration in
  let ratio := Scored.artistMatchPercent names in
  let diff := Scored.durationDiff targetDuration in
  let eligible := Scored.eligible names targetDuration in
  let pass := Scored.scoringPass title names targetDuration results in
  (forall c, eligible c = true <-> (0.5 <=? ratio c) = true \/ (diff c <? 10) = true)
  /\ (forall song, pass = Ok song -> In song results /\ eligible song = true)
  /\ (pass = Scored.NoConfidentMatch
      <-> forall c, In c results -> eligible c = true -> (5 <=? score c) = false)
  /\ (forall c, In c results -> (0.5 <=? ratio c) = true -> (5 <=? score c) = true ->
                exists song, pass = Ok song).
Proof.
  cbv zeta. repeat split.
  - unfold Scored.eligible. now intros H%orb_true_iff.
  - unfold Scored.eligible. now intros H%orb_true_iff.
  - apply selected_is_first_best in H as (i & Hi & _). eapply nth_error_In, Hi.
  - now apply selected_is_first_best in H as (i & _ & He & _).
  - apply rejects_iff.
  - apply rejects_iff.
  - intros c Hin Hratio Hscore.
    destruct (scoringPass_cases title names targetDuration results)
      as [[Hr _] | (song & Hr & _)]; [|now exists song].
    exfalso. pose proof (proj1 (rejects_iff _ _ _ _) Hr c Hin) as Hc.
    unfold Scored.eligible in Hc. rewrite Hratio in Hc. specialize (Hc eq_refl).
    congruence.
Qed.

(** C4: the song the scoring pass returns is an element of the results, at
    some position [i]; it is eligible; no eligible song of the results has a
    strictly higher composite; and no eligible song before position [i]
    reaches its composite, so that on a tie the earliest song is kept. *)
Theorem scoring_keeps_first_highest (title : string) (names : list string)
    (targetDuration : float) (results : list Song.t) (song : Song.t) :
  let score := Scored.score title names targetDuration in
  let eligible := Scored.eligible names targetDuration in
  Scored.scoringPass title names targetDuration results = Ok song ->
  exists i,
    nth_error results i = Some song
    /\ eligible song = true
    /\ (forall j c, nth_error results j = Some c -> eligible c = true ->
                    (score song <? score c) = false)
    /\ (forall j c, (j < i)%nat -> nth_error results j = Some c -> eligible c = true ->
                    (score song <=? score c) = false).
Proof. cbv zeta. apply selected_is_first_best. Qed.

(** Two listings of "Imagine" tie at 13.9: the first one is returned. *)
Lemma scoring_keeps_first_highest_witness :
  Scored.scoringPass "Imagine" ["john lennon"] 183 [imagine; imagineAgain] = Ok imagine
  /\ exists i,
       nth_error [imagine; imagineAgain] i = Some imagine
       /\ Scored.eligible ["john lennon"] 183 imagine = true
       /\ (forall j c, nth_error [imagine; imagineAgain] j = Some c ->
                       Scored.eligible ["john lennon"] 183 c = true ->
                       (Scored.score "Imagine" ["john lennon"] 183 imagine
                        <? Scored.score "Imagine" ["john lennon"] 183 c) = false)
       /\ (forall j c, (j < i)%nat -> nth_error [imagine; imagineAgain] j = Some c ->
                       Scored.eligible ["john lennon"] 183 c = true ->
                       (Scored.score "Imagine" ["john lennon"] 183 imagine
                        <=? Scored.score "Imagine" ["john lennon"] 183 c) = false).
Proof.
  split; [vm_compute; reflexivity|].
  apply (scoring_keeps_first_highest "Imagine" ["john lennon"] 183 [imagine; imagineAgain]).
  vm_compute. reflexivity.
Defined.

(** C10: when the author hint is present but holds no name (it splits into
    zero non-empty tokens, as a hint made of commas, ampersands and white
    space does) and the duration hint is present, the scoring pass selects no
    song whatever the results are, and the metadata search fails. *)
Theorem no_author_name_no_match (title author duration : string)
    (first : Song.t) (rest : list Song.t) :
  Scored.authorNames author = [] ->
  isEmpty author = false ->
  isEmpty duration = false ->
  Scored.selectBest title (Some author) (Some duration) first rest = Scored.NoConfidentMatch
  /\ forall net t, exists e t',
       Scored.searchJioSaavn net title (Some author) (Some duration) t = (Throw e, t').
Proof.
  intros Hnames Ha Hd.
  assert (Hsel : forall song songs,
             Scored.selectBest title (Some author) (Some duration) song songs
             = Scored.NoConfidentMatch).
  { intros song songs. unfold Scored.selectBest. rewrite Ha, Hd, Hnames.
    apply scoringPass_no_names. }
  split; [apply Hsel|].
  intros net t. unfold Scored.searchJioSaavn, bind, fetchWithTimeout, json, throw, ret.
  destruct (net t _) as [e | | r]; [eauto | eauto |].
  destruct (Http.ok r); cbn [negb]; [|eauto].
  destruct (Http.body r) as [data|]; [|eauto].
  destruct (Scored.resultsOf data) as [[first' rest']|]; [|eauto].
  rewrite Hsel. unfold Scored.NoConfidentMatch. eauto.
Qed.

Lemma no_author_name_no_match_witness :
  Scored.selectBest "Imagine" (Some " , & ") (Some "181") imagine [imagineAgain]
  = Scored.NoConfidentMatch
  /\ forall net t, exists e t',
       Scored.searchJioSaavn net "Imagine" (Some " , & ") (Some "181") t = (Throw e, t').
Proof.
  apply (no_author_name_no_match "Imagine" " , & " "181" imagine [imagineAgain]);
    reflexivity.
Defined.

(** ** The code computes the composite of the specification *)

Lemma mul_comm (a b : float) : a * b = b * a.
Proof.
  apply Prim2SF_inj. rewrite !mul_spec. unfold SF64mul.
  destruct (Prim2SF a) as [sa | sa | | sa ma ea], (Prim2SF b) as [sb | sb | | sb mb eb];
    simpl; try reflexivity; try (now rewrite xorb_comm).
  now rewrite xorb_comm, Pos.mul_comm, Z.add_comm.
Qed.

Lemma isSeparator_lowerChar c : isSeparator (lowerChar c) = isSeparator c.
Proof. each_char c. Qed.

Lemma isSpace_lowerChar c : isSpace (lowerChar c) = isSpace c.
Proof. each_char c. Qed.

Lemma lowerChar_idem c : lowerChar (lowerChar c) = lowerChar c.
Proof. each_char c. Qed.

Lemma toLowerCase_idem s : toLowerCase (toLowerCase s) = toLowerCase s.
Proof. induction s as [|c s IH]; simpl; [reflexivity|]. now rewrite lowerChar_idem, IH. Qed.

Lemma isEmpty_toLowerCase s : isEmpty (toLowerCase s) = isEmpty s.
Proof. now destruct s. Qed.

Lemma isEmpty_length s : (0 <? String.length s)%nat = negb (isEmpty s).
Proof. now destruct s. Qed.

Lemma split_toLowerCase s :
  split isSeparator (toLowerCase s) = map toLowerCase (split isSeparator s).
Proof.
  induction s as [|c s IH]; simpl; [reflexivity|].
  rewrite isSeparator_lowerChar, IH.
  destruct (isSeparator c); [reflexivity|].
  now destruct (split isSeparator s).
Qed.

Lemma trimStart_toLowerCase s : trimStart (toLowerCase s) = toLowerCase (trimStart s).
Proof.
  induction s as [|c s IH]; simpl; [reflexivity|].
  rewrite isSpace_lowerChar. now destruct (isSpace c).
Qed.

Lemma trimEnd_toLowerCase s : trimEnd (toLowerCase s) = toLowerCase (trimEnd s).
Proof.
  induction s as [|c s IH]; simpl; [reflexivity|].
  rewrite isSpace_lowerChar, IH, isEmpty_toLowerCase.
  now destruct (isSpace c && isEmpty (trimEnd s)).
Qed.

Lemma trim_toLowerCase s : trim (toLowerCase s) = toLowerCase (trim s).
Proof. unfold trim. now rewrite trimStart_toLowerCase, trimEnd_toLowerCase. Qed.

Lemma stripSpaces_toLowerCase s :
  toLowerCase (stripSpaces s) = stripSpaces (toLowerCase s).
Proof.
  induction s as [|c s IH]; simpl; [reflexivity|].
  rewrite isSpace_lowerChar. destruct (isSpace c); simpl; now rewrite IH.
Qed.

(** The code lower-cases the hint before splitting it; the tokens are the
    same. *)
Lemma authorNames_tokens author : Scored.authorNames author = Spec.tokens author.
Proof.
  unfold Scored.authorNames, Spec.tokens.
  rewrite split_toLowerCase, map_map.
  rewrite (map_ext _ _ (fun piece => trim_toLowerCase piece)).
  apply filter_ext. intros token. apply isEmpty_length.
Qed.

Lemma currentArtists_artistSet song : Scored.currentArtists song = Spec.artistSet song.
Proof. unfold Scored.currentArtists, Spec.artistSet. now rewrite map_app. Qed.

(** On lower-case names the second [toLowerCase] of the code changes
    nothing. *)
Lemma artistMatches_lower token artist :
  Scored.artistMatches (toLowerCase token) (toLowerCase artist)
  = Spec.matches (toLowerCase token) (toLowerCase artist).
Proof.
  unfold Scored.artistMatches, Spec.matches.
  now rewrite !stripSpaces_toLowerCase, !toLowerCase_idem.
Qed.

Lemma tokens_lower author token :
  In token (Spec.tokens author) -> toLowerCase token = token.
Proof.
  unfold Spec.tokens. intros [Hin _]%filter_In.
  apply in_map_iff in Hin as (piece & <- & _). apply toLowerCase_idem.
Qed.

Lemma artistSet_lower song artist :
  In artist (Spec.artistSet song) -> toLowerCase artist = artist.
Proof.
  unfold Spec.artistSet. intros (name & <- & _)%in_map_iff. apply toLowerCase_idem.
Qed.

Lemma existsb_ext_in {A} (f g : A -> bool) l :
  (forall x, In x l -> f x = g x) -> existsb f l = existsb g l.
Proof.
  induction l as [|x l IH]; simpl; [reflexivity|].
  intros H. rewrite (H x (or_introl eq_refl)), IH; [reflexivity|].
  intros y Hy. apply H. now right.
Qed.

(** The counting loop counts the names that pass the test. *)
Lemma count_loop {A} (test : A -> bool) l : forall n,
  fold_left (fun matched x => if test x then S matched else matched) l n
  = (n + List.length (filter test l))%nat.
Proof.
  induction l as [|x l IH]; intros n; simpl; [lia|].
  rewrite IH. destruct (test x); simpl; lia.
Qed.

Lemma matchedArtists_count author song :
  Scored.matchedArtists (Scored.authorNames author) song
  = Spec.matchedTokenCount author song.
Proof.
  unfold Scored.matchedArtists, Spec.matchedTokenCount.
  rewrite (count_loop (fun authName =>
             existsb (Scored.artistMatches authName) (Scored.currentArtists song))).
  rewrite authorNames_tokens, currentArtists_artistSet. simpl. f_equal.
  apply filter_ext_in. intros token Htoken.
  apply existsb_ext_in. intros artist Hartist.
  rewrite <- (tokens_lower author token Htoken), <- (artistSet_lower song artist Hartist).
  apply artistMatches_lower.
Qed.

(** C3: for every song scored in the full scoring pass, the composite is
    10 times the artist match ratio (the hint tokens matched through
    containment in either direction with white space stripped, over all hint
    tokens), plus 3 times [max(0, 1 - diff/60)], plus 1 or 0.5 for the
    title; a missing duration (as any falsy one) takes the difference 999,
    any other duration its distance to the hint; ratio 1, difference 2 and
    a matching title give 13.9, which is the composite of "Imagine" in the
    scenario of the specification. *)
Theorem composite_formula (title author : string) (targetDuration : float) (song : Song.t) :
  let names := Scored.authorNames author in
  let diff := Scored.durationDiff targetDuration song in
  Scored.score title names targetDuration song
  = Spec.composite (Spec.artistMatchRatio author song) diff (Spec.titleScore title song)
  /\ (Song.duration song = None -> diff = 999)
  /\ (truthyNum (Song.duration song) = false -> diff = 999)
  /\ (forall d, Song.duration song = Some d -> truthyNum (Some d) = true ->
                diff = Math_abs (d - targetDuration))
  /\ Spec.composite 1 2 1 = 13.9
  /\ Scored.score "Imagine" (Scored.authorNames "John Lennon") (parseInt "183") imagine
     = 13.9.
Proof.
  cbv zeta. repeat split.
  - unfold Scored.score, Spec.composite, Scored.artistMatchPercent, Spec.artistMatchRatio.
    rewrite matchedArtists_count, authorNames_tokens.
    rewrite (mul_comm _ 10), (mul_comm _ 3), (mul_comm _ 1). reflexivity.
  - unfold Scored.durationDiff. now intros ->.
  - unfold Scored.durationDiff. destruct (Song.duration song) as [d|]; [|reflexivity].
    now intros ->.
  - unfold Scored.durationDiff. now intros d -> ->.
Qed.

(** ** The instance adapters (section 4.3) *)

Lemma tryInstance_run net source base videoId instance t :
  tryInstance net source base videoId instance t
  = (Ok (option_map
           (fun data => {| InstanceResult.source := source;
                           InstanceResult.instance := base instance;
                           InstanceResult.data := data |})
           (answer (net t (callOf base videoId instance)))),
     t ++ [Fetch (callOf base videoId instance)]).
Proof.
  unfold tryInstance, tryCatch, bind, fetchWithTimeout, json, answer, callOf.
  destruct (net t _) as [e | | r]; try reflexivity.
  destruct (Http.ok r); simpl; [|reflexivity].
  now destruct (Http.body r).
Qed.

Lemma tryInstances_walk net source base exhausted videoId instances : forall t,
  Walk net source base exhausted videoId instances t
    (fst (tryInstances net source base exhausted instances videoId t))
    (snd (tryInstances net source base exhausted instances videoId t)).
Proof.
  induction instances as [|instance rest IH]; intros t; simpl.
  - constructor.
  - unfold bind. rewrite tryInstance_run.
    destruct (answer (net t (callOf base videoId instance))) as [data|] eqn:E; simpl.
    + now constructor.
    + apply walk_skip; [assumption | apply IH].
Qed.

(** What a walk leaves in the trace: one call for each entry of a prefix
    of the list, in the order of the list; the whole list when it fails, and
    the prefix that ends with the instance that answered otherwise. *)
Lemma Walk_trace net source base exhausted videoId instances t r t' :
  Walk net source base exhausted videoId instances t r t' ->
  exists k, (k <= List.length instances)%nat
    /\ t' = t ++ map (fun i => Fetch (callOf base videoId i)) (firstn k instances)
    /\ match r with
       | Ok found =>
           exists instance, nth_error instances (k - 1) = Some instance
             /\ (0 < k)%nat
             /\ InstanceResult.instance found = base instance
       | Throw e => k = List.length instances /\ e = exhausted
       end.
Proof.
  induction 1 as [t | instance rest t data H | instance rest t r t' H Hwalk IH].
  - exists 0%nat. simpl. rewrite app_nil_r. repeat split. lia.
  - exists 1%nat. simpl. repeat split; [lia|]. exists instance. repeat split. lia.
  - destruct IH as (k & Hk & -> & Hr). exists (S k). simpl. split; [lia|]. split.
    + now rewrite <- app_assoc.
    + destruct r as [found | e].
      * destruct Hr as (inst & Hnth & Hpos & Hinst). exists inst. repeat split; try lia.
        -- destruct k as [|k]; [lia|]. simpl in *. now rewrite Nat.sub_0_r in *.
        -- assumption.
      * destruct Hr as [-> ->]. now split.
Qed.

Lemma tryInstances_quiet net source base exhausted instances videoId :
  quiet (tryInstances net source base exhausted instances videoId).
Proof.
  intros t.
  destruct (Walk_trace _ _ _ _ _ _ _ _ _
              (tryInstances_walk net source base exhausted videoId instances t))
    as (k & _ & -> & _).
  exists (map (callOf base videoId) (firstn k instances)). now rewrite map_map.
Qed.

(** The metadata search makes exactly one call, whatever comes of it. *)
Ltac one_call net t :=
  unfold bind, fetchWithTimeout, json, throw, ret;
  match goal with
  | |- context [net t ?c] =>
      exists [c]; destruct (net t c) as [e | | r]; try reflexivity;
      destruct (Http.ok r); cbn [negb]; try reflexivity;
      destruct (Http.body r) as [data|]; try reflexivity
  end.

Lemma Scored_search_quiet net title author duration :
  quiet (Scored.searchJioSaavn net title author duration).
Proof.
  intros t. unfold Scored.searchJioSaavn. one_call net t.
  destruct (Scored.resultsOf data) as [[first rest]|]; try reflexivity.
  now destruct (Scored.selectBest title author duration first rest).
Qed.

Lemma Reduced_search_quiet net title author duration :
  quiet (Reduced.searchJioSaavn net title author duration).
Proof.
  intros t. unfold Reduced.searchJioSaavn. one_call net t.
  now destruct (Reduced.resultsOf data) as [[first rest]|].
Qed.

Lemma Audio_search_quiet net title author duration :
  quiet (Audio.searchJioSaavn net title author duration).
Proof.
  intros t. unfold Audio.searchJioSaavn. one_call net t.
  now destruct (Audio.resultsOf data) as [[first rest]|].
Qed.

(** ** The orchestrator (section 4.4) *)

Section Orchestrator.

Variable net : Network.
Variable searchJioSaavn : string -> option string -> option string -> IO SaavnResult.t.
Variable fetchFromStremio : string -> IO InstanceResult.t.

Let handler := handlerOf net searchJioSaavn fetchFromStremio.
Let plan := planOf net searchJioSaavn fetchFromStremio.

Lemma attempt_run {A} (s : Strategy) (run : IO A) (respond : A -> Body) t :
  attempt s run respond t
  = match run (t ++ [Trying s]) with
    | (Ok a, t') => (Ok (Some {| status := 200; body := respond a |}), t')
    | (Throw _, t') => (Ok None, t')
    end.
Proof.
  unfold attempt, tryCatch, bind, emit, ret.
  now destruct (run (t ++ [Trying s])) as [[a | e] t'].
Qed.

Lemma mapIO_run {A B} (f : A -> B) (m : IO A) t :
  mapIO f m t = match m t with
                | (Ok a, t') => (Ok (f a), t')
                | (Throw e, t') => (Throw e, t')
                end.
Proof. reflexivity. Qed.

(** A request that reaches the strategies is the state machine run on its
    plan. *)
Lemma handler_fallback req videoId t :
  method req = "GET" ->
  id (query req) = Some videoId ->
  isEmpty videoId = false ->
  exists response t',
    handler req t = (Ok response, t')
    /\ Fallback (notFound (query req)) (plan (query req) videoId) t response t'.
Proof.
  intros Hm Hid Hne. unfold handler, handlerOf, plan, planOf.
  rewrite Hm, Hid, Hne. cbn [String.eqb Ascii.eqb Bool.eqb negb].
  fold (notFound (query req)).
  assert (Hrest : forall t1, exists response t',
    orElse (attempt Stremio (fetchFromStremio videoId) InstanceBody)
      (orElse (attempt Invidious (fetchFromInvidious net videoId) InstanceBody)
         (ret (notFound (query req)))) t1 = (Ok response, t')
    /\ Fallback (notFound (query req))
         [ (Stremio, mapIO InstanceBody (fetchFromStremio videoId));
           (Invidious, mapIO InstanceBody (fetchFromInvidious net videoId)) ]
         t1 response t').
  { intros t1. unfold orElse, bind. rewrite attempt_run.
    destruct (fetchFromStremio videoId (t1 ++ [Trying Stremio])) as [[found | e] t2] eqn:E2.
    - do 2 eexists. split; [reflexivity|].
      apply fallback_success. now rewrite mapIO_run, E2.
    - rewrite attempt_run.
      destruct (fetchFromInvidious net videoId (t2 ++ [Trying Invidious]))
        as [[found | e'] t3] eqn:E3.
      + do 2 eexists. split; [reflexivity|].
        eapply fallback_next; [now rewrite mapIO_run, E2|].
        apply fallback_success. now rewrite mapIO_run, E3.
      + do 2 eexists. split; [reflexivity|].
        eapply fallback_next; [now rewrite mapIO_run, E2|].
        eapply fallback_next; [now rewrite mapIO_run, E3|].
        apply fallback_exhausted. }
  unfold tryCatch at 1. unfold orElse at 1. unfold bind at 1.
  destruct (title (query req)) as [titleText|]; [destruct (isEmpty titleText) eqn:Ht|].
  - unfold ret at 1. cbv beta iota.
    destruct (Hrest t) as (response & t' & -> & H). simpl. eauto.
  - rewrite attempt_run.
    destruct (searchJioSaavn titleText (author (query req)) (duration (query req))
                (t ++ [Trying Saavn])) as [[found | e] t1] eqn:E1.
    + do 2 eexists. split; [reflexivity|].
      apply fallback_success. now rewrite mapIO_run, E1.
    + cbv beta iota.
      destruct (Hrest t1) as (response & t' & -> & H). do 2 eexists. split; [reflexivity|].
      eapply fallback_next; [now rewrite mapIO_run, E1|]. exact H.
  - unfold ret at 1. cbv beta iota.
    destruct (Hrest t) as (response & t' & -> & H). simpl. eauto.
Qed.

End Orchestrator.

(** ** What the state machine leaves in the trace *)

Lemma strategiesOf_app t u : strategiesOf (t ++ u) = strategiesOf t ++ strategiesOf u.
Proof. apply flat_map_app. Qed.

Lemma strategiesOf_calls calls : strategiesOf (map Fetch calls) = [].
Proof. induction calls; simpl; auto. Qed.

Lemma mapIO_quiet {A B} (f : A -> B) (m : IO A) : quiet m -> quiet (mapIO f m).
Proof.
  intros H t. destruct (H t) as [calls Hc]. exists calls.
  rewrite mapIO_run. now destruct (m t) as [[a | e] t'].
Qed.

(** The strategies entered are the first [k] of the plan, each once and in
    the order of the plan; all of them when the request is exhausted; the
    [k]-th one has succeeded otherwise. *)
Lemma Fallback_trace exhausted plan t response t' :
  Forall (fun entry => quiet (snd entry)) plan ->
  Fallback exhausted plan t response t' ->
  exists k events,
    (k <= List.length plan)%nat
    /\ (plan <> [] -> 0 < k)%nat
    /\ t' = t ++ events
    /\ strategiesOf events = firstn k (map fst plan)
    /\ ((response = exhausted /\ k = List.length plan)
        \/ (exists s run found t0 t1,
              nth_error plan (k - 1) = Some (s, run) /\ (0 < k)%nat
              /\ run t0 = (Ok found, t1)
              /\ response = {| status := 200; body := found |})).
Proof.
  intros Hq H.
  induction H as [t | s run rest t found t' Hrun | s run rest t e t' response t'' Hrun H IH].
  - exists 0%nat, []. simpl. rewrite app_nil_r. repeat split; auto. congruence.
  - inversion Hq as [|? ? Hrunq _]; subst. simpl in Hrunq.
    destruct (Hrunq (t ++ [Trying s])) as [calls Hc]. rewrite Hrun in Hc. simpl in Hc.
    exists 1%nat, (Trying s :: map Fetch calls). simpl. repeat split; try lia.
    + now rewrite Hc, <- app_assoc.
    + now rewrite strategiesOf_calls.
    + right. exists s, run, found, (t ++ [Trying s]), t'. repeat split; auto.
  - inversion Hq as [|? ? Hrunq Hrestq]; subst. simpl in Hrunq.
    destruct (Hrunq (t ++ [Trying s])) as [calls Hc]. rewrite Hrun in Hc. simpl in Hc.
    destruct (IH Hrestq) as (k & events & Hk & _ & -> & Hs & Hend).
    exists (S k), (Trying s :: map Fetch calls ++ events). simpl. repeat split; try lia.
    + now rewrite Hc, <- !app_assoc.
    + now rewrite strategiesOf_app, strategiesOf_calls, Hs.
    + destruct Hend as [[-> ->] | (s' & run' & found & t0 & t1 & Hnth & Hpos & Hok & ->)].
      * now left.
      * right. exists s', run', found, t0, t1. repeat split; auto; try lia.
        destruct k as [|k]; [lia|]. simpl in *. now rewrite Nat.sub_0_r in *.
Qed.

(** The state machine is deterministic: when every strategy fails, the
    request ends exhausted. *)
Lemma Fallback_AllFail exhausted plan t response t' t'' :
  Fallback exhausted plan t response t' ->
  AllFail plan t t'' ->
  response = exhausted /\ t' = t''.
Proof.
  intros H. revert t''.
  induction H as [t | s run rest t found t' Hrun | s run rest t e t' response t'' Hrun H IH];
    intros u Hfail; inversion Hfail; subst.
  - now split.
  - congruence.
  - match goal with
    | Hr : run _ = (Throw _, _), Hf : AllFail rest _ u |- _ =>
        rewrite Hrun in Hr; injection Hr as _ <-; exact (IH u Hf)
    end.
Qed.

Section Plans.

Variable net : Network.
Variable searchJioSaavn : string -> option string -> option string -> IO SaavnResult.t.
Variable fetchFromStremio : string -> IO InstanceResult.t.

Hypothesis search_quiet : forall title author duration,
  quiet (searchJioSaavn title author duration).
Hypothesis stremio_quiet : forall videoId, quiet (fetchFromStremio videoId).

Lemma plan_tags q videoId :
  map fst (planOf net searchJioSaavn fetchFromStremio q videoId) = tagsOf q.
Proof.
  unfold planOf, tagsOf, truthy.
  destruct (title q) as [titleText|]; [|reflexivity]. now destruct (isEmpty titleText).
Qed.

Lemma plan_quiet q videoId :
  Forall (fun entry => quiet (snd entry))
    (planOf net searchJioSaavn fetchFromStremio q videoId).
Proof.
  unfold planOf. apply Forall_app. split.
  - destruct (title q) as [titleText|]; [|constructor].
    destruct (isEmpty titleText); constructor; [|constructor].
    apply mapIO_quiet, search_quiet.
  - repeat constructor; simpl; apply mapIO_quiet;
      [apply stremio_quiet | apply tryInstances_quiet].
Qed.

Lemma tagsOf_NoDup q k : NoDup (firstn k (tagsOf q)).
Proof.
  unfold tagsOf. destruct (truthy (title q)); simpl;
    destruct k as [|[|[|k]]]; simpl; rewrite ?firstn_nil;
    repeat constructor; simpl; intuition discriminate.
Qed.

Lemma handler_follows_plan req videoId t :
  method req = "GET" ->
  id (query req) = Some videoId ->
  isEmpty videoId = false ->
  follows_plan (handlerOf net searchJioSaavn fetchFromStremio)
    (planOf net searchJioSaavn fetchFromStremio (query req) videoId) req t.
Proof.
  intros Hm Hid Hne.
  destruct (handler_fallback net searchJioSaavn fetchFromStremio req videoId t Hm Hid Hne)
    as (response & t' & Hrun & Hfb).
  destruct (Fallback_trace _ _ _ _ _ (plan_quiet (query req) videoId) Hfb)
    as (k & events & Hk & Hpos & Ht & Hs & Hend).
  rewrite plan_tags in Hs.
  assert (Hlen : List.length (planOf net searchJioSaavn fetchFromStremio (query req) videoId)
                 = List.length (tagsOf (query req)))
    by now rewrite <- (plan_tags (query req) videoId), length_map.
  assert (Hk0 : (0 < k)%nat).
  { apply Hpos. unfold planOf. intros Hnil. apply app_eq_nil in Hnil as [_ Hnil].
    discriminate. }
  exists response, t', k, events.
  split; [exact Hrun|]. split; [apply plan_tags|]. split; [exact Hfb|]. split; [lia|]. split; [exact Ht|].
  split; [exact Hs|]. split; [rewrite Hs; apply tagsOf_NoDup|].
  destruct Hend as [[-> ->] | (s & run & found & t0 & t1 & Hnth & _ & Hok & ->)].
  - left. now split.
  - right. now exists s, run, found, t0, t1.
Qed.

(** When every strategy fails, the answer is the Not-Found response. *)
Lemma handler_exhausted req videoId t t'' :
  method req = "GET" ->
  id (query req) = Some videoId ->
  isEmpty videoId = false ->
  AllFail (planOf net searchJioSaavn fetchFromStremio (query req) videoId) t t'' ->
  handlerOf net searchJioSaavn fetchFromStremio req t = (Ok (notFound (query req)), t'').
Proof.
  intros Hm Hid Hne Hfail.
  destruct (handler_fallback net searchJioSaavn fetchFromStremio req videoId t Hm Hid Hne)
    as (response & t' & Hrun & Hfb).
  destruct (Fallback_AllFail _ _ _ _ _ _ Hfb Hfail) as [-> ->]. exact Hrun.
Qed.

(** A request that is not a GET reaches no strategy: the pre-flight probe
    gets 200 and no body, any other method 405. *)
Lemma handler_other_methods req t :
  method req <> "GET" ->
  exists response,
    handlerOf net searchJioSaavn fetchFromStremio req t = (Ok response, t)
    /\ (response = {| status := 200; body := NoBody |} /\ method req = "OPTIONS"
        \/ response = {| status := 405; body := ErrorBody "Method not allowed" |}
           /\ method req <> "OPTIONS").
Proof.
  intros Hm. unfold handlerOf.
  destruct (String.eqb_spec (method req) "OPTIONS") as [Ho | Ho].
  - eexists. split; [reflexivity|]. left. now repeat split.
  - destruct (String.eqb_spec (method req) "GET") as [Hg | Hg]; [contradiction|].
    eexists. split; [reflexivity|]. right. now split.
Qed.

(** Without an [id] nothing is tried. *)
Lemma handler_missing_id req t :
  method req = "GET" ->
  truthy (id (query req)) = false ->
  handlerOf net searchJioSaavn fetchFromStremio req t
  = (Ok {| status := 400; body := ErrorBody "Missing required parameter: id" |}, t).
Proof.
  intros Hm Hid. unfold handlerOf. rewrite Hm. cbn [String.eqb Ascii.eqb Bool.eqb negb].
  unfold truthy in Hid. destruct (id (query req)) as [videoId|]; [|reflexivity].
  destruct (isEmpty videoId); [reflexivity | discriminate].
Qed.

End Plans.

Lemma handlerAt_handlerOf v net :
  handlerAt v net = handlerOf net (searchAt v net) (stremioAt v net).
Proof. now destruct v. Qed.

Lemma searchAt_quiet v net title author duration :
  quiet (searchAt v net title author duration).
Proof.
  destruct v; [apply Audio_search_quiet | apply Scored_search_quiet | apply Reduced_search_quiet].
Qed.

Lemma stremioAt_quiet v net videoId : quiet (stremioAt v net videoId).
Proof. destruct v; apply tryInstances_quiet. Qed.

(** ** Claims about the handler *)

(** C5: in every version, a GET request with an [id] runs the state machine
    of the specification on the plan "metadata search (only when a title is
    given), Stremio, Invidious": the strategies are entered in that order,
    at least one and none twice; the first one that succeeds ends the request
    with status 200 and its result, and nothing is entered after it. *)
Theorem fallback_order (v : Version) (net : Network) (req : Request)
    (videoId : string) (t : Trace) :
  method req = "GET" ->
  id (query req) = Some videoId ->
  isEmpty videoId = false ->
  follows_plan (handlerAt v net) (planAt v net (query req) videoId) req t.
Proof.
  intros Hm Hid Hne. rewrite handlerAt_handlerOf.
  apply handler_follows_plan; auto using searchAt_quiet, stremioAt_quiet.
Qed.

Lemma fallback_order_witness :
  follows_plan (handlerAt Part000 saavnUp)
    (planAt Part000 saavnUp (query imagineRequest) "abc123") imagineRequest [].
Proof. apply (fallback_order Part000 saavnUp imagineRequest "abc123" []); reflexivity. Defined.

(** C7: in every version, when the strategies of a GET request with an [id]
    all fail, the answer has status 404 and a body with [success: false], the
    error message and the attempts: ['failed'] for the metadata search when a
    title was given and ['skipped'] when not, ['failed'] for both instance
    pools. *)
Theorem exhausted_not_found (v : Version) (net : Network) (req : Request)
    (videoId : string) (t t' : Trace) :
  method req = "GET" ->
  id (query req) = Some videoId ->
  isEmpty videoId = false ->
  AllFail (planAt v net (query req) videoId) t t' ->
  handlerAt v net req t
  = (Ok {| status := 404;
           body := NotFoundBody "Could not fetch audio from any source"
                     (if truthy (title (query req)) then "failed" else "skipped")
                     "failed" "failed" |},
     t').
Proof.
  intros Hm Hid Hne Hfail. rewrite handlerAt_handlerOf.
  now apply (handler_exhausted net _ _ req videoId).
Qed.

Lemma exhausted_not_found_witness :
  exists t',
    handlerAt ApiAudio silent idOnlyRequest []
    = (Ok {| status := 404;
             body := NotFoundBody "Could not fetch audio from any source"
                       "skipped" "failed" "failed" |},
       t').
Proof.
  eexists.
  apply (exhausted_not_found ApiAudio silent idOnlyRequest "abc123" []);
    [reflexivity | reflexivity | reflexivity |].
  unfold planAt, planOf. simpl.
  eapply allFail_cons; [vm_compute; reflexivity|].
  eapply allFail_cons; [vm_compute; reflexivity|].
  apply allFail_nil.
Defined.

(** C8: in every version, a GET request without an [id] is answered with
    status 400 and the message that names the missing parameter, whatever its
    other parameters, and the trace is left as it was: no strategy is
    entered and no call is made. *)
Theorem missing_id_bad_request (v : Version) (net : Network) (req : Request) (t : Trace) :
  method req = "GET" ->
  truthy (id (query req)) = false ->
  handlerAt v net req t
  = (Ok {| status := 400; body := ErrorBody "Missing required parameter: id" |}, t).
Proof.
  intros Hm Hid. rewrite handlerAt_handlerOf. now apply handler_missing_id.
Qed.

Lemma missing_id_bad_request_witness :
  handlerAt Part000 saavnUp noIdRequest []
  = (Ok {| status := 400; body := ErrorBody "Missing required parameter: id" |}, []).
Proof. apply (missing_id_bad_request Part000 saavnUp noIdRequest []); reflexivity. Defined.

(** ** The Stremio list of src/api/audio.js *)

Lemma instances_distinct : NoDup Scored.STREMIO_INSTANCES /\ NoDup INVIDIOUS_INSTANCES.
Proof.
  split; repeat constructor; simpl; intuition discriminate.
Qed.

Lemma Audio_instances_repeat : ~ NoDup Audio.STREMIO_INSTANCES.
Proof.
  intros H. inversion H as [|? ? Hnotin _]. apply Hnotin. simpl. auto.
Qed.

Lemma NoDup_firstn {A} (l : list A) : NoDup l -> forall k, NoDup (firstn k l).
Proof.
  induction 1 as [|x l Hx Hl IH]; intros [|k]; simpl; try constructor.
  - intros Hin. apply Hx. rewrite <- (firstn_skipn k l). apply in_or_app. now left.
  - apply IH.
Qed.

(** With a list that names no instance twice, as the lists of part_000 and
    part_001 do, a walk calls a duplicate-free prefix of the list: every
    instance at most once. *)
Lemma Walk_calls_once net source base exhausted videoId instances t r t' :
  NoDup instances ->
  Walk net source base exhausted videoId instances t r t' ->
  exists called k,
    called = firstn k instances
    /\ NoDup called
    /\ t' = t ++ map (fun i => Fetch (callOf base videoId i)) called.
Proof.
  intros Hnd Hwalk. destruct (Walk_trace _ _ _ _ _ _ _ _ _ Hwalk) as (k & _ & Ht & _).
  exists (firstn k instances), k. repeat split; [now apply NoDup_firstn | exact Ht].
Qed.

(** C6 fails in src/api/audio.js: its Stremio list names the first instance
    a second time, so when no instance answers, the adapter calls that
    instance twice within one request (the calls are to the first, second
    and again first instance) before it reports the failure. *)
Theorem audio_stremio_repeats_instance :
  let first := callOf (fun i => i) "abc123" "https://ubiquitous-rugelach-b30b3f.netlify.app" in
  let second := callOf (fun i => i) "abc123" "https://super-duper-system.netlify.app" in
  Audio.fetchFromStremio silent "abc123" []
  = (Throw "All Stremio instances failed", [Fetch first; Fetch second; Fetch first])
  /\ Scored.fetchFromStremio silent "abc123" []
     = (Throw "All Stremio instances failed", [Fetch first; Fetch second]).
Proof. split; reflexivity. Qed.

(** ** Selection without hints, and the derived result *)

(** C2, as stated, fails in src/api/audio.js: with a duration hint of 200
    and no author hint, the second candidate, whose duration is nearer, is
    selected. *)
Lemma stated_first_candidate_rule_fails : ~ stated_first_candidate_rule ApiAudio.
Proof.
  intros H.
  specialize (H "Imagine" None (Some "200") imagine [imagineLive] (or_introl eq_refl)).
  vm_compute in H. discriminate.
Qed.

(** C2, amended: for every non-empty candidate list, part_000 and part_001
    return the first candidate, with no scoring, whenever the author hint or
    the duration hint is absent; src/api/audio.js returns the first candidate,
    whatever the author hint, whenever the duration hint is absent or the list
    has a single candidate. *)
Theorem first_candidate_without_hints :
  stated_first_candidate_rule Part000
  /\ stated_first_candidate_rule Part001
  /\ (forall title author duration first rest,
        truthy duration = false \/ rest = [] ->
        selectorAt ApiAudio title author duration first rest = Ok first).
Proof.
  repeat split.
  - intros title [a|] [d|] first rest; simpl; try reflexivity.
    unfold Scored.selectBest. intros [H | H]; apply negb_false_iff in H; rewrite H;
      now rewrite ?andb_false_r.
  - intros title [a|] [d|] first rest; simpl; try reflexivity.
    unfold Reduced.selectBest. intros [H | H]; apply negb_false_iff in H; rewrite H;
      now rewrite ?andb_false_r.
  - intros title author [d|] first rest; simpl; try reflexivity.
    unfold Audio.selectBest. intros [H | ->].
    + apply negb_false_iff in H. now rewrite H.
    + simpl. now destruct (negb (isEmpty d)).
Qed.

Lemma lastUrl_lastEntry links :
  lastUrl links = option_map Link.url (lastEntry (orEmpty links)).
Proof.
  unfold lastUrl, lastEntry. destruct links as [l|]; [|reflexivity]. simpl.
  destruct l as [|x l] using rev_ind; [reflexivity|].
  rewrite rev_app_distr, length_app. simpl.
  replace (List.length l + 1 - 1)%nat with (List.length l) by lia.
  rewrite nth_error_app2, Nat.sub_diag by lia.
  now replace (0 <? List.length l + 1)%nat with true by (symmetry; apply Nat.ltb_lt; lia).
Qed.

Lemma Scored_artists song :
  let names := orEmpty (namesOf (primaryOf song)) ++ orEmpty (namesOf (featuredOf song)) in
  Scored.artistsOf song = match names with [] => "Unknown" | _ => join ", " names end.
Proof.
  unfold Scored.artistsOf.
  now destruct (orEmpty (namesOf (primaryOf song)) ++ orEmpty (namesOf (featuredOf song))).
Qed.

(** C9, as stated, fails in src/api/audio.js: the artist string of a song
    with a featured artist names the primary artist alone. *)
Lemma stated_derivation_rule_fails : ~ stated_derivation_rule ApiAudio.
Proof.
  intros H. destruct (H happyXmas) as (_ & _ & Hartist).
  vm_compute in Hartist. discriminate.
Qed.

(** C9, amended: in every version the download URL and the thumbnail of the
    result are the URLs of the last entries of the song's [downloadUrl] and
    [image] lists; in part_000 and part_001 the artist string joins, with
    [", "], the primary then the featured names, and is "Unknown" when both
    lists are empty; in src/api/audio.js it joins the primary names alone,
    or the names of [artists.all] when that string is empty, and is
    "Unknown" when both strings are empty. *)
Theorem derived_result :
  stated_derivation_rule Part000
  /\ stated_derivation_rule Part001
  /\ (forall song,
        let result := resultOf song (artistsAt ApiAudio song) in
        let primaryNames := join ", " (orEmpty (namesOf (primaryOf song))) in
        let allNames := join ", " (orEmpty (namesOf (allOf song))) in
        SaavnResult.downloadUrl result
        = option_map Link.url (lastEntry (orEmpty (Song.downloadUrl song)))
        /\ SaavnResult.thumbnail result
           = option_map Link.url (lastEntry (orEmpty (Song.image song)))
        /\ SaavnResult.artist result
           = if negb (isEmpty primaryNames) then primaryNames
             else if negb (isEmpty allNames) then allNames
             else "Unknown").
Proof.
  split; [|split].
  - intros song. cbv zeta. split; [apply lastUrl_lastEntry|].
    split; [apply lastUrl_lastEntry | apply Scored_artists].
  - intros song. cbv zeta. split; [apply lastUrl_lastEntry|].
    split; [apply lastUrl_lastEntry | apply Scored_artists].
  - intros song. cbv zeta. split; [apply lastUrl_lastEntry|].
    split; [apply lastUrl_lastEntry|].
    simpl. unfold Audio.artistsOf, Audio.orString.
    destruct (namesOf (primaryOf song)) as [p|], (namesOf (allOf song)) as [a|]; simpl;
      repeat match goal with
      | |- context [isEmpty ?s] => destruct (isEmpty s)
      end; reflexivity.
Qed.

(** ** The scenarios of the specification (section 8), run on the code *)

(** Scenario A: no title; the metadata search is skipped and both pools
    are tried. *)
Example scenario_A :
  strategiesOf (snd (handlerAt Part000 silent idOnlyRequest [])) = [Stremio; Invidious]
  /\ fst (handlerAt Part000 silent idOnlyRequest [])
     = Ok {| status := 404;
             body := NotFoundBody "Could not fetch audio from any source"
                       "skipped" "failed" "failed" |}.
Proof. split; reflexivity. Qed.

(** Scenario B: "Imagine" by John Lennon, 183 s asked and 181 s found. *)
Example scenario_B :
  Scored.artistMatchPercent (Scored.authorNames "John Lennon") imagine = 1
  /\ Scored.durationDiff (parseInt "183") imagine = 2
  /\ Scored.titleMatch "Imagine" imagine = 1
  /\ handlerAt Part000 saavnUp imagineRequest []
     = (Ok {| status := 200;
              body := SaavnBody
                        {| SaavnResult.source := "saavn";
                           SaavnResult.title := "Imagine";
                           SaavnResult.artist := "John Lennon";
                           SaavnResult.duration := Some 181;
                           SaavnResult.thumbnail := Some "https://cdn.example/imagine_500.jpg";
                           SaavnResult.downloadUrl := Some "https://cdn.example/imagine_320.mp4";
                           SaavnResult.url := Some "https://www.jiosaavn.com/song/imagine" |} |},
        [ Trying Saavn;
          Fetch {| callUrl :=
                     "https://saavn.sumit.co/api/search/songs?query=Imagine%20John%20Lennon";
                   callTimeout := 10000 |} ]).
Proof. repeat split; vm_compute; reflexivity. Qed.

(** Scenario C: no artist matches and the duration is 45 s off; the song is
    not eligible and the search fails. *)
Example scenario_C :
  Scored.artistMatchPercent (Scored.authorNames "Elton John") imagine = 0
  /\ Scored.durationDiff (parseInt "226") imagine = 45
  /\ Scored.eligible (Scored.authorNames "Elton John") (parseInt "226") imagine = false
  /\ Scored.selectBest "Imagine" (Some "Elton John") (Some "226") imagine []
     = Scored.NoConfidentMatch.
Proof. repeat split; vm_compute; reflexivity. Qed.

(** Scenario D: nothing answers. *)
Example scenario_D :
  fst (handlerAt Part000 silent imagineRequest [])
  = Ok {| status := 404;
          body := NotFoundBody "Could not fetch audio from any source"
                    "failed" "failed" "failed" |}.
Proof. vm_compute. reflexivity. Qed.

(** * Further properties of the code *)

(** ** More on the order of Numbers *)

Lemma ltb_irrefl (a : float) : (a <? a) = false.
Proof.
  destruct (a <? a) eqn:E; [|reflexivity].
  pose proof (FloatOrder.ltb_not_leb _ _ E) as H.
  now rewrite (FloatOrder.ltb_leb _ _ E) in H.
Qed.

Lemma ltb_trans (a b c : float) : (a <? b) = true -> (b <? c) = true -> (a <? c) = true.
Proof. intros H. apply FloatOrder.leb_ltb_trans, FloatOrder.ltb_leb, H. Qed.

Lemma is_nan_eq (a : float) : is_nan a = true -> a = nan.
Proof.
  unfold is_nan. rewrite FloatAxioms.eqb_spec. intros H.
  apply Prim2SF_inj. change (Prim2SF nan) with S754_nan.
  destruct (Prim2SF a) as [s | s | | s m e]; try reflexivity;
    unfold SFeqb in H; simpl in H; try (now destruct s).
  destruct s; rewrite Z.compare_refl in H; simpl in H;
    change (Pos.compare_cont Eq m m) with (Pos.compare m m) in H;
    now rewrite Pos.compare_refl in H.
Qed.

Lemma add_nan_r (a : float) : a + nan = nan.
Proof.
  apply Prim2SF_inj. rewrite add_spec. unfold SF64add, SFadd.
  change (Prim2SF nan) with S754_nan. now destruct (Prim2SF a).
Qed.

Lemma sub_nan_r (a : float) : a - nan = nan.
Proof.
  apply Prim2SF_inj. rewrite sub_spec. unfold SF64sub, SFsub.
  change (Prim2SF nan) with S754_nan. now destruct (Prim2SF a).
Qed.

(** ** The scoring pass of part_000, continued *)

Section ScoringMore.

Import FloatOrder.

Variable title : string.
Variable names : list string.
Variable targetDuration : float.

Let score := Scored.score title names targetDuration.
Let eligible := Scored.eligible names targetDuration.
Let scoringPass := Scored.scoringPass title names targetDuration.

(** What is known of the composite of the song returned. *)
Lemma selected_score results song :
  scoringPass results = Ok song ->
  numeric (score song) = true /\ (score song <? 5) = false.
Proof.
  intros Hsel.
  pose proof (Best_scan title names targetDuration results) as (Hnum & _ & Hbest).
  destruct (scoringPass_cases title names targetDuration results)
    as [[Hr _] | (song' & Hr & Hfst & Hsnd)]; fold scoringPass in Hr; rewrite Hr in Hsel.
  - discriminate.
  - injection Hsel as ->. rewrite Hfst in Hbest.
    destruct Hbest as (i & _ & _ & Hs & _). fold score in Hs.
    rewrite <- Hs. now split.
Qed.

End ScoringMore.

(** X12: the song returned by the scoring pass clears the floor: its composite
    is a Number, at least 5. *)
Theorem returned_song_clears_floor (title : string) (names : list string)
    (targetDuration : float) (results : list Song.t) (song : Song.t) :
  Scored.scoringPass title names targetDuration results = Ok song ->
  is_nan (Scored.score title names targetDuration song) = false
  /\ (5 <=? Scored.score title names targetDuration song) = true.
Proof.
  intros H. apply selected_score in H as [Hnum Hlow]. split.
  - rewrite FloatOrder.numeric_is_nan in Hnum. now apply negb_true_iff in Hnum.
  - now apply FloatOrder.ltb_total.
Qed.

Lemma returned_song_clears_floor_witness :
  is_nan (Scored.score "Imagine" ["john lennon"] 183 imagine) = false
  /\ (5 <=? Scored.score "Imagine" ["john lennon"] 183 imagine) = true.
Proof.
  apply (returned_song_clears_floor "Imagine" ["john lennon"] 183 [imagine; imagineAgain]).
  vm_compute. reflexivity.
Defined.

(** With a target that is [NaN], a song with a usable duration has a [NaN]
    composite. *)
Lemma score_nan_target title names (song : Song.t) :
  usable song = true -> Scored.score title names nan song = nan.
Proof.
  unfold usable, Scored.score, Scored.durationScore, Scored.durationDiff.
  destruct (Song.duration song) as [d|]; [|discriminate]. intros ->.
  rewrite sub_nan_r.
  change (Math_max 0 (1 - Math_abs nan / 60) * 3) with nan.
  now rewrite add_nan_r, FloatOrder.add_nan_l.
Qed.

(** X13: when the duration hint does not parse as a number, the scoring pass
    never returns a song that has a usable duration. *)
Theorem unparsed_duration_excludes_timed_songs (title : string) (names : list string)
    (duration : string) (results : list Song.t) (song : Song.t) :
  is_nan (parseInt duration) = true ->
  Scored.scoringPass title names (parseInt duration) results = Ok song ->
  usable song = false.
Proof.
  intros Hnan Hsel. apply is_nan_eq in Hnan. rewrite Hnan in Hsel.
  apply selected_score in Hsel as [Hnum _].
  destruct (usable song) eqn:Hu; [|reflexivity].
  rewrite (score_nan_target title names song Hu) in Hnum. discriminate.
Qed.

Lemma unparsed_duration_excludes_timed_songs_witness : usable imagineUntimed = false.
Proof.
  apply (unparsed_duration_excludes_timed_songs "Imagine" ["john lennon"] "abc"
           [imagine; imagineUntimed]);
    vm_compute; reflexivity.
Defined.

(** ** Counting the matched names (part_000) *)

(** X11: the count of matched names never exceeds the number of names. *)
Theorem matched_at_most_names (names : list string) (song : Song.t) :
  (Scored.matchedArtists names song <= List.length names)%nat.
Proof.
  unfold Scored.matchedArtists.
  rewrite (count_loop (fun authName =>
             existsb (Scored.artistMatches authName) (Scored.currentArtists song))).
  apply filter_length_le.
Qed.

Lemma stripSpaces_spaces s : allChars isSpace s = true -> stripSpaces s = EmptyString.
Proof.
  induction s as [|c s IH]; simpl; [reflexivity|].
  intros [Hc Hs]%andb_true_iff. rewrite Hc. now apply IH.
Qed.

Lemma includes_empty s : includes s EmptyString = true.
Proof. now destruct s. Qed.

(** X10: a song that lists an artist whose name is blank (empty or white space)
    matches every name of the hint: after the spaces are stripped the artist
    is the empty string, which every name includes. *)
Theorem blank_artist_matches_every_name (names : list string) (song : Song.t)
    (artist : string) :
  In artist (Scored.currentArtists song) ->
  allChars isSpace artist = true ->
  Scored.matchedArtists names song = List.length names.
Proof.
  intros Hin Hblank. unfold Scored.matchedArtists.
  rewrite (count_loop (fun authName =>
             existsb (Scored.artistMatches authName) (Scored.currentArtists song))).
  simpl. f_equal. apply forallb_filter_id. apply forallb_forall. intros authName _.
  apply existsb_exists. exists artist. split; [assumption|].
  unfold Scored.artistMatches. rewrite (stripSpaces_spaces artist Hblank). simpl.
  rewrite includes_empty. apply orb_true_r.
Qed.

Lemma blank_artist_matches_every_name_witness :
  Scored.matchedArtists ["john lennon"; "yoko ono"] anonymousSong = 2%nat.
Proof.
  apply (blank_artist_matches_every_name ["john lennon"; "yoko ono"] anonymousSong " ");
    [left; reflexivity | reflexivity].
Defined.

(** ** The selection of src/api/audio.js: the nearest duration *)

Section NearestDuration.

Variable targetDuration : float.

Let closer := Audio.closer targetDuration.
Let dist := gap targetDuration.

Lemma closer_unusable_current best current :
  usable current = false -> closer best current = best.
Proof.
  unfold usable, closer, Audio.closer.
  destruct (Song.duration current) as [c|]; [|reflexivity].
  intros ->. now destruct (Song.duration best).
Qed.

Lemma closer_unusable_best best current :
  usable best = false -> closer best current = best.
Proof.
  unfold usable, closer, Audio.closer.
  destruct (Song.duration current) as [c|]; [|reflexivity].
  destruct (Song.duration best) as [b|]; [|reflexivity].
  intros ->. now rewrite orb_true_r.
Qed.

Lemma closer_usable best current :
  usable best = true -> usable current = true ->
  closer best current = if dist current <? dist best then current else best.
Proof.
  unfold usable, closer, Audio.closer, dist, gap.
  destruct (Song.duration current) as [c|]; [|discriminate].
  destruct (Song.duration best) as [b|]; [|discriminate].
  now intros -> ->.
Qed.

Lemma Nearest_start first : usable first = true -> Nearest targetDuration [first] first.
Proof.
  intros Hu. split; [assumption|]. exists 0%nat. repeat split.
  - intros [|[|j]] c Hj _; try discriminate. injection Hj as <-. apply ltb_irrefl.
  - intros j c Hj. lia.
Qed.

Lemma Nearest_step seen best current :
  Nearest targetDuration seen best ->
  Nearest targetDuration (seen ++ [current]) (closer best current).
Proof.
  intros (Hu & i & Hi & Hun & Hearly).
  assert (Hlen : (i < List.length seen)%nat) by (apply nth_error_Some; congruence).
  assert (Hstay : Nearest targetDuration seen best
                  -> (usable current = true ->
                      (gap targetDuration current <? gap targetDuration best) = false)
                  -> Nearest targetDuration (seen ++ [current]) best).
  { intros _ Hcur. split; [assumption|]. exists i. repeat split.
    - now rewrite nth_error_app1.
    - intros j c Hj Hc. apply nth_error_snoc in Hj as [[_ Hj] | [_ ->]]; eauto.
    - intros j c Hji Hj Hc. rewrite nth_error_app1 in Hj by lia. eauto. }
  destruct (usable current) eqn:Hc.
  - rewrite (closer_usable best current Hu Hc). fold (gap targetDuration) in *.
    unfold dist. destruct (gap targetDuration current <? gap targetDuration best) eqn:Hlt.
    + (* the current song is strictly nearer *)
      assert (Hnew : forall j c, nth_error seen j = Some c -> usable c = true ->
                (gap targetDuration c <=? gap targetDuration current) = false).
      { intros j c Hj Hcu.
        destruct (gap targetDuration c <=? gap targetDuration current) eqn:Hle; [|reflexivity].
        pose proof (Hun j c Hj Hcu) as Hu'.
        now rewrite (FloatOrder.leb_ltb_trans _ _ _ Hle Hlt) in Hu'. }
      split; [assumption|]. exists (List.length seen). repeat split.
      * rewrite nth_error_app2 by lia. now rewrite Nat.sub_diag.
      * intros j c Hj Hcu. apply nth_error_snoc in Hj as [[_ Hj] | [_ ->]].
        -- destruct (gap targetDuration c <? gap targetDuration current) eqn:E; [|reflexivity].
           apply FloatOrder.ltb_leb in E. now rewrite (Hnew j c Hj Hcu) in E.
        -- apply ltb_irrefl.
      * intros j c Hji Hj Hcu. rewrite nth_error_app1 in Hj by assumption. eauto.
    + apply Hstay; [now split; [|exists i] | now intros _].
  - rewrite (closer_unusable_current best current Hc).
    apply Hstay; [now split; [|exists i] | discriminate].
Qed.

Lemma Nearest_fold rest : forall seen best,
  Nearest targetDuration seen best ->
  Nearest targetDuration (seen ++ rest) (fold_left closer rest best).
Proof.
  induction rest as [|current rest IH]; intros seen best H; simpl.
  - now rewrite app_nil_r.
  - replace (seen ++ current :: rest) with ((seen ++ [current]) ++ rest)
      by now rewrite <- app_assoc.
    apply IH, Nearest_step, H.
Qed.

Lemma fold_unusable_first rest : forall first,
  usable first = false -> fold_left closer rest first = first.
Proof.
  induction rest as [|current rest IH]; intros first H; simpl; [reflexivity|].
  rewrite (closer_unusable_best first current H). now apply IH.
Qed.

End NearestDuration.

Lemma Audio_selectBest_fold duration first rest :
  isEmpty duration = false ->
  Audio.selectBest (Some duration) first rest
  = fold_left (Audio.closer (parseInt duration)) rest first.
Proof.
  intros H. unfold Audio.selectBest. rewrite H. simpl.
  destruct rest as [|second rest]; reflexivity.
Qed.

(** X6: with a duration hint, and a first candidate whose duration is usable,
    src/api/audio.js returns a candidate with a usable duration such that
    no candidate with a usable duration is strictly nearer to the hint; among
    the nearest it is the earliest of the list. *)
Theorem audio_returns_earliest_nearest (duration : string) (first : Song.t)
    (rest : list Song.t) :
  isEmpty duration = false ->
  usable first = true ->
  Nearest (parseInt duration) (first :: rest) (Audio.selectBest (Some duration) first rest).
Proof.
  intros Hd Hu. rewrite (Audio_selectBest_fold duration first rest Hd).
  apply (Nearest_fold (parseInt duration) rest [first] first).
  now apply Nearest_start.
Qed.

Lemma audio_returns_earliest_nearest_witness :
  Nearest (parseInt "200") [imagine; imagineLive; imagineAgain]
    (Audio.selectBest (Some "200") imagine [imagineLive; imagineAgain]).
Proof.
  apply (audio_returns_earliest_nearest "200" imagine [imagineLive; imagineAgain]);
    reflexivity.
Defined.

(** X7: when the first candidate has no usable duration (missing or 0),
    src/api/audio.js returns it whatever the duration hint and the other
    candidates are: the reduce never leaves a best song it cannot compare. *)
Theorem audio_untimed_first_stays (duration : option string) (first : Song.t)
    (rest : list Song.t) :
  usable first = false ->
  Audio.selectBest duration first rest = first.
Proof.
  intros Hu. unfold Audio.selectBest. destruct duration as [d|]; [|reflexivity].
  destruct (negb (isEmpty d) && (1 <? List.length (first :: rest))%nat); [|reflexivity].
  now apply fold_unusable_first.
Qed.

Lemma audio_untimed_first_stays_witness :
  Audio.selectBest (Some "181") imagineUntimed [imagine; imagineLive] = imagineUntimed.
Proof.
  apply (audio_untimed_first_stays (Some "181") imagineUntimed [imagine; imagineLive]).
  reflexivity.
Defined.

(** ** The selection of part_001: the artist/duration reduce *)

Lemma Reduced_selectBest_fold author duration first rest :
  isEmpty author = false ->
  isEmpty duration = false ->
  Reduced.selectBest (Some author) (Some duration) first rest
  = fold_left (Reduced.better (Reduced.authorNames author) (parseInt duration)) rest first.
Proof.
  intros Ha Hd. unfold Reduced.selectBest. rewrite Ha, Hd. simpl.
  destruct rest as [|second rest]; reflexivity.
Qed.

(** X8: in part_001, when the last candidate matches an artist of the hint and
    is within 30 seconds of the duration hint, it is the one returned, whatever
    the candidates before it are: the reduce lets a later match replace an
    earlier, nearer one. *)
Theorem reduced_last_match_wins (author duration : string) (first last : Song.t)
    (between : list Song.t) :
  isEmpty author = false ->
  isEmpty duration = false ->
  artistMatchOf (Reduced.authorNames author) last = true ->
  (Reduced.diffOf (parseInt duration) last <? 30) = true ->
  Reduced.selectBest (Some author) (Some duration) first (between ++ [last]) = last.
Proof.
  intros Ha Hd Hmatch Hnear.
  rewrite (Reduced_selectBest_fold author duration first _ Ha Hd), fold_left_app. simpl.
  unfold Reduced.better. unfold artistMatchOf in Hmatch. now rewrite Hmatch, Hnear.
Qed.

Lemma reduced_last_match_wins_witness :
  Reduced.selectBest (Some "John Lennon") (Some "183") imagine [imagineAgain; imagineLive]
  = imagineLive.
Proof.
  apply (reduced_last_match_wins "John Lennon" "183" imagine imagineLive [imagineAgain]);
    reflexivity.
Defined.

(** X9: in part_001 the pieces of the author hint that are empty after trimming
    are kept (as in ["lennon,"]); since every string includes the empty
    string, every song that lists an artist then passes the artist test. *)
Theorem reduced_empty_piece_matches_all (author : string) (song : Song.t) :
  In EmptyString (Reduced.authorNames author) ->
  Scored.currentArtists song <> [] ->
  artistMatchOf (Reduced.authorNames author) song = true.
Proof.
  intros Hin Hartists. unfold artistMatchOf.
  apply existsb_exists. exists EmptyString. split; [assumption|].
  destruct (Scored.currentArtists song) as [|artist artists]; [contradiction|].
  simpl. now rewrite includes_empty.
Qed.

Lemma reduced_empty_piece_matches_all_witness :
  artistMatchOf (Reduced.authorNames "elton john,") imagine = true.
Proof.
  apply (reduced_empty_piece_matches_all "elton john," imagine).
  - right. left. reflexivity.
  - discriminate.
Defined.

(** ** The selected song is one of the results (all versions) *)

Lemma fold_left_pick {A} (f : A -> A -> A) :
  (forall best current, f best current = best \/ f best current = current) ->
  forall rest first, In (fold_left f rest first) (first :: rest).
Proof.
  intros Hf. induction rest as [|current rest IH]; intros first; simpl; [now left|].
  destruct (Hf first current) as [-> | ->].
  - destruct (IH first) as [<- | Hin]; [now left | right; now right].
  - right. apply IH.
Qed.

Lemma better_picks names targetDuration best current :
  Reduced.better names targetDuration best current = best
  \/ Reduced.better names targetDuration best current = current.
Proof.
  unfold Reduced.better.
  repeat match goal with |- context [if ?b then _ else _] => destruct b end; auto.
Qed.

Lemma closer_picks targetDuration best current :
  Audio.closer targetDuration best current = best
  \/ Audio.closer targetDuration best current = current.
Proof.
  unfold Audio.closer.
  destruct (Song.duration current), (Song.duration best); auto.
  repeat match goal with |- context [if ?b then _ else _] => destruct b end; auto.
Qed.

(** X5: in every version the song selected is one of the results of the search:
    the selection never builds or alters a song. *)
Theorem selected_song_is_a_result (v : Version) (title : string)
    (author duration : option string) (first : Song.t) (rest : list Song.t)
    (best : Song.t) :
  selectorAt v title author duration first rest = Ok best ->
  In best (first :: rest).
Proof.
  destruct v; cbn [selectorAt].
  - intros [= <-]. unfold Audio.selectBest.
    destruct duration as [d|]; [|now left].
    destruct (negb (isEmpty d) && (1 <? List.length (first :: rest))%nat); [|now left].
    apply fold_left_pick, closer_picks.
  - unfold Scored.selectBest.
    destruct author as [a|], duration as [d|]; try (intros [= <-]; now left).
    destruct (negb (isEmpty a) && negb (isEmpty d)); [|intros [= <-]; now left].
    intros H. apply selected_is_first_best in H as (i & Hi & _).
    eapply nth_error_In, Hi.
  - intros [= <-]. unfold Reduced.selectBest.
    destruct author as [a|], duration as [d|]; try now left.
    destruct (negb (isEmpty a) && negb (isEmpty d) && (1 <? List.length (first :: rest))%nat);
      [|now left].
    apply fold_left_pick, better_picks.
Qed.

Lemma selected_song_is_a_result_witness :
  In imagineLive [imagine; imagineAgain; imagineLive].
Proof.
  apply (selected_song_is_a_result Part001 "Imagine" (Some "John Lennon") (Some "183")
           imagine [imagineAgain; imagineLive] imagineLive).
  reflexivity.
Defined.

(** ** The metadata search as a whole (all versions) *)

(** The run of [searchJioSaavn]: one call, then the selection on the
    results of the reply. *)
Lemma search_run v net title author duration t :
  exists outcome,
    searchAt v net title author duration t
    = (outcome, t ++ [Fetch (searchCall title author)])
    /\ match reply (net t (searchCall title author)) with
       | Some (first, rest) =>
           outcome
           = match selectorAt v title author duration first rest with
             | Ok best => Ok (resultOf best (artistsAt v best))
             | Throw e => Throw e
             end
       | None => exists e, outcome = Throw e
       end.
Proof.
  unfold reply, answer, searchCall.
  destruct v; cbn [searchAt selectorAt artistsAt];
    unfold Audio.searchJioSaavn, Scored.searchJioSaavn, Reduced.searchJioSaavn,
      bind, fetchWithTimeout, json, throw, ret;
    (destruct (net t _) as [e | | r]; [eauto | eauto |]);
    (destruct (Http.ok r); cbn [negb]; [|eauto]);
    (destruct (Http.body r) as [data|]; [|eauto]);
    destruct data as [[] [[[|first rest]|]|] | text]; simpl; eauto.
  destruct (Scored.selectBest title author duration first rest); eauto.
Qed.

(** X3: whatever the outcome, the metadata search makes exactly one call, to
    the search URL and with a budget of 10 seconds: a failed search is not
    retried. *)
Theorem search_makes_one_call (v : Version) (net : Network) (title : string)
    (author duration : option string) (t : Trace) :
  snd (searchAt v net title author duration t)
  = t ++ [Fetch {| callUrl := searchUrlOf title author; callTimeout := 10000 |}].
Proof.
  destruct (search_run v net title author duration t) as (outcome & -> & _). reflexivity.
Qed.

(** X4: the metadata search succeeds exactly when the reply to its call is a
    2xx reply that parses, says [success] and lists at least one song, and the
    selection of the version accepts a song; the result is then derived from
    that song. *)
Theorem search_succeeds_iff (v : Version) (net : Network) (title : string)
    (author duration : option string) (t t' : Trace) (result : SaavnResult.t) :
  searchAt v net title author duration t = (Ok result, t')
  <-> exists first rest best,
        reply (net t (searchCall title author)) = Some (first, rest)
        /\ selectorAt v title author duration first rest = Ok best
        /\ result = resultOf best (artistsAt v best)
        /\ t' = t ++ [Fetch (searchCall title author)].
Proof.
  destruct (search_run v net title author duration t) as (outcome & Hrun & Hout).
  rewrite Hrun. split.
  - intros [= -> <-].
    destruct (reply (net t (searchCall title author))) as [[first rest]|].
    + destruct (selectorAt v title author duration first rest) as [best | e] eqn:Hsel;
        [|discriminate].
      injection Hout as ->. now exists first, rest, best.
    + destruct Hout as [e He]. discriminate.
  - intros (first & rest & best & Hreply & Hsel & -> & ->).
    rewrite Hreply, Hsel in Hout. now rewrite Hout.
Qed.

(** ** The outcome of an instance adapter *)

Lemma AllSkipped_nil net base videoId t : AllSkipped net base videoId t [].
Proof. intros [|x before] instance after H; discriminate. Qed.

Lemma AllSkipped_cons net base videoId t instance rest :
  answer (net t (callOf base videoId instance)) = None ->
  AllSkipped net base videoId (t ++ [Fetch (callOf base videoId instance)]) rest ->
  AllSkipped net base videoId t (instance :: rest).
Proof.
  intros Hhead Hrest [|x before] inst after H; injection H as -> ->.
  - simpl. now rewrite app_nil_r.
  - specialize (Hrest before inst after eq_refl).
    unfold callsTo in *. simpl. now rewrite <- app_assoc in Hrest.
Qed.

Lemma AllSkipped_head net base videoId t instance rest :
  AllSkipped net base videoId t (instance :: rest) ->
  answer (net t (callOf base videoId instance)) = None
  /\ AllSkipped net base videoId (t ++ [Fetch (callOf base videoId instance)]) rest.
Proof.
  intros H. split.
  - specialize (H [] instance rest eq_refl). simpl in H. now rewrite app_nil_r in H.
  - intros before inst after ->.
    specialize (H (instance :: before) inst after eq_refl).
    unfold callsTo in *. simpl in H. now rewrite <- app_assoc.
Qed.

(** A walk that succeeds stops at the first instance that answers and
    hands its data on; a walk that fails has called every instance. *)
Lemma Walk_outcome net source base exhausted videoId instances t r t' :
  Walk net source base exhausted videoId instances t r t' ->
  match r with
  | Ok found =>
      exists before instance after data,
        instances = before ++ instance :: after
        /\ AllSkipped net base videoId t before
        /\ answer (net (t ++ callsTo base videoId before) (callOf base videoId instance))
           = Some data
        /\ found = {| InstanceResult.source := source;
                      InstanceResult.instance := base instance;
                      InstanceResult.data := data |}
        /\ t' = t ++ callsTo base videoId (before ++ [instance])
  | Throw e =>
      e = exhausted
      /\ AllSkipped net base videoId t instances
      /\ t' = t ++ callsTo base videoId instances
  end.
Proof.
  induction 1 as [t | instance rest t data H | instance rest t r t' H Hwalk IH].
  - repeat split; [apply AllSkipped_nil | simpl; now rewrite app_nil_r].
  - exists [], instance, rest, data. simpl. rewrite app_nil_r.
    repeat split; [apply AllSkipped_nil | assumption].
  - destruct r as [found | e].
    + destruct IH as (before & inst & after & data & -> & Hskip & Hans & -> & ->).
      exists (instance :: before), inst, after, data.
      repeat split.
      * now apply AllSkipped_cons.
      * unfold callsTo in *. simpl. now rewrite <- app_assoc in Hans.
      * unfold callsTo. simpl. now rewrite <- app_assoc.
    + destruct IH as (-> & Hskip & ->). repeat split.
      * now apply AllSkipped_cons.
      * unfold callsTo. simpl. now rewrite <- app_assoc.
Qed.

(** X14: when an adapter ([fetchFromStremio] or [fetchFromInvidious], both the
    loop [tryInstances]) succeeds, its result names the first instance of the
    list that answered with a 2xx reply that parses, carries the data of that
    reply unchanged, and the calls made are those to the instances up to that
    one, in the order of the list, each of the earlier ones having failed. *)
Theorem adapter_success (net : Network) (source : string) (base : string -> string)
    (exhausted : string) (instances : list string) (videoId : string)
    (t t' : Trace) (found : InstanceResult.t) :
  tryInstances net source base exhausted instances videoId t = (Ok found, t') ->
  exists before instance after,
    instances = before ++ instance :: after
    /\ AllSkipped net base videoId t before
    /\ answer (net (t ++ callsTo base videoId before) (callOf base videoId instance))
       = Some (InstanceResult.data found)
    /\ InstanceResult.source found = source
    /\ InstanceResult.instance found = base instance
    /\ t' = t ++ callsTo base videoId (before ++ [instance]).
Proof.
  intros Hrun.
  pose proof (tryInstances_walk net source base exhausted videoId instances t) as Hwalk.
  rewrite Hrun in Hwalk. apply Walk_outcome in Hwalk.
  destruct Hwalk as (before & instance & after & data & Hl & Hskip & Hans & -> & Ht).
  now exists before, instance, after.
Qed.

Lemma adapter_success_witness :
  exists before instance after,
    INVIDIOUS_INSTANCES = before ++ instance :: after
    /\ AllSkipped thirdUp (fun i => "https://" ++ i)%string "abc123" [] before
    /\ answer (thirdUp ([] ++ callsTo (fun i => "https://" ++ i)%string "abc123" before)
                 (callOf (fun i => "https://" ++ i)%string "abc123" instance))
       = Some (JOther "{}")
    /\ "invidious" = "invidious"
    /\ "https://invidious.reallyaweso.me" = ("https://" ++ instance)%string
    /\ callsTo (fun i => "https://" ++ i)%string "abc123"
         ["invidious.darkness.services"; "yt.omada.cafe"; "invidious.reallyaweso.me"]
       = [] ++ callsTo (fun i => "https://" ++ i)%string "abc123" (before ++ [instance]).
Proof.
  apply (adapter_success thirdUp "invidious" (fun i => "https://" ++ i)%string
           "All Invidious instances failed" INVIDIOUS_INSTANCES "abc123" []
           (callsTo (fun i => "https://" ++ i)%string "abc123"
              ["invidious.darkness.services"; "yt.omada.cafe"; "invidious.reallyaweso.me"])
           {| InstanceResult.source := "invidious";
              InstanceResult.instance := "https://invidious.reallyaweso.me";
              InstanceResult.data := JOther "{}" |}).
  vm_compute. reflexivity.
Defined.

(** X15: an adapter fails exactly when every instance of its list fails in
    turn; it then throws its "All ... instances failed" error after one call
    to each instance of the list, in order. *)
Theorem adapter_fails_iff_all_fail (net : Network) (source : string)
    (base : string -> string) (exhausted : string) (instances : list string)
    (videoId : string) (t : Trace) :
  (AllSkipped net base videoId t instances
   <-> exists e t', tryInstances net source base exhausted instances videoId t = (Throw e, t'))
  /\ (forall e t',
        tryInstances net source base exhausted instances videoId t = (Throw e, t') ->
        e = exhausted /\ t' = t ++ callsTo base videoId instances).
Proof.
  pose proof (tryInstances_walk net source base exhausted videoId instances t) as Hwalk.
  apply Walk_outcome in Hwalk.
  destruct (tryInstances net source base exhausted instances videoId t) as [[found | e] t'];
    simpl in Hwalk.
  - destruct Hwalk as (before & instance & after & data & -> & _ & Hans & _).
    split; [split|].
    + intros Hskip. specialize (Hskip before instance after eq_refl). congruence.
    + intros (e & u & [=]).
    + intros e u [=].
  - destruct Hwalk as (-> & Hskip & ->). split; [split|].
    + intros _. eauto.
    + intros _. exact Hskip.
    + intros e u [= <- <-]. now split.
Qed.

(** ** The answers of the handler *)

(** X2: a request whose method is not GET reaches no strategy and makes no call,
    with or without an [id]: OPTIONS gets 200 and an empty body, any other
    method 405. *)
Theorem other_methods_try_nothing (v : Version) (net : Network) (req : Request) (t : Trace) :
  method req <> "GET" ->
  handlerAt v net req t
  = (Ok (if (method req =? "OPTIONS")%string
         then {| status := 200; body := NoBody |}
         else {| status := 405; body := ErrorBody "Method not allowed" |}),
     t).
Proof.
  intros Hm. rewrite handlerAt_handlerOf.
  destruct (handler_other_methods net (searchAt v net) (stremioAt v net) req t Hm)
    as (response & -> & [[-> Ho] | [-> Ho]]).
  - now rewrite Ho.
  - apply String.eqb_neq in Ho. now rewrite Ho.
Qed.

Lemma other_methods_try_nothing_witness :
  handlerAt ApiAudio saavnUp
    {| method := "POST"; query := query imagineRequest |} []
  = (Ok {| status := 405; body := ErrorBody "Method not allowed" |}, []).
Proof.
  apply (other_methods_try_nothing ApiAudio saavnUp
           {| method := "POST"; query := query imagineRequest |} []).
  discriminate.
Defined.

Lemma plan_entries net search stremio q videoId s run :
  In (s, run) (planOf net search stremio q videoId) ->
  (truthy (title q) = true
   /\ exists titleText, run = mapIO SaavnBody (search titleText (author q) (duration q)))
  \/ run = mapIO InstanceBody (stremio videoId)
  \/ run = mapIO InstanceBody (fetchFromInvidious net videoId).
Proof.
  unfold planOf, truthy. intros [Hin | Hin]%in_app_or.
  - destruct (title q) as [titleText|]; [|contradiction].
    destruct (isEmpty titleText); [contradiction|].
    destruct Hin as [[= <- <-] | []]. left. split; [reflexivity | now exists titleText].
  - destruct Hin as [[= <- <-] | [[= <- <-] | []]]; auto.
Qed.

Lemma mapIO_Ok {A B} (f : A -> B) (m : IO A) t found t' :
  mapIO f m t = (Ok found, t') -> exists a, m t = (Ok a, t') /\ found = f a.
Proof.
  rewrite mapIO_run. destruct (m t) as [[a | e] u]; intros [= <- <-]. now exists a.
Qed.

Lemma tryInstances_source net source base exhausted instances videoId t found t' :
  tryInstances net source base exhausted instances videoId t = (Ok found, t') ->
  InstanceResult.source found = source.
Proof.
  intros Hrun.
  pose proof (tryInstances_walk net source base exhausted videoId instances t) as Hwalk.
  rewrite Hrun in Hwalk. apply Walk_outcome in Hwalk.
  now destruct Hwalk as (before & instance & after & data & _ & _ & _ & -> & _).
Qed.

Lemma stremioAt_source v net videoId t found t' :
  stremioAt v net videoId t = (Ok found, t') -> InstanceResult.source found = "stremio".
Proof. destruct v; apply tryInstances_source. Qed.

Lemma searchAt_source v net title author duration t result t' :
  searchAt v net title author duration t = (Ok result, t') ->
  SaavnResult.source result = "saavn".
Proof.
  destruct (search_run v net title author duration t) as (outcome & -> & Hout).
  intros [= ->]. destruct (reply _) as [[first rest]|].
  - destruct (selectorAt v title author duration first rest); [|discriminate].
    now injection Hout as ->.
  - now destruct Hout.
Qed.

(** X1: every request is answered, in every version and whatever the network
    does, by one of six answers: 200 with no body, 405, 400, 200 with the
    result of the metadata search (only when a title was given), 200 with the
    result of an instance whose source is "stremio" or "invidious", or the
    404 answer with the attempts.  The handler never throws and never gives
    the 500 answer of its outermost [catch]; it only adds to the trace. *)
Theorem handler_answers (v : Version) (net : Network) (req : Request) (t : Trace) :
  exists response events,
    handlerAt v net req t = (Ok response, t ++ events)
    /\ (response = {| status := 200; body := NoBody |}
        \/ response = {| status := 405; body := ErrorBody "Method not allowed" |}
        \/ response = {| status := 400; body := ErrorBody "Missing required parameter: id" |}
        \/ (exists result,
              response = {| status := 200; body := SaavnBody result |}
              /\ SaavnResult.source result = "saavn"
              /\ truthy (title (query req)) = true)
        \/ (exists result,
              response = {| status := 200; body := InstanceBody result |}
              /\ (InstanceResult.source result = "stremio"
                  \/ InstanceResult.source result = "invidious"))
        \/ response = notFound (query req)).
Proof.
  rewrite handlerAt_handlerOf.
  destruct (String.eqb_spec (method req) "GET") as [Hget | Hother].
  - destruct (truthy (id (query req))) eqn:Hid.
    + unfold truthy in Hid. destruct (id (query req)) as [videoId|] eqn:Hv; [|discriminate].
      apply negb_true_iff in Hid.
      destruct (handler_follows_plan net (searchAt v net) (stremioAt v net)
                  (searchAt_quiet v net) (stremioAt_quiet v net) req videoId t Hget Hv Hid)
        as (response & t' & k & events & Hrun & _ & _ & _ & -> & _ & _ & Hend).
      exists response, events. split; [exact Hrun|].
      destruct Hend as [[-> _] | (s & run & found & t0 & t1 & Hnth & Hok & ->)].
      * do 5 right. reflexivity.
      * apply nth_error_In, plan_entries in Hnth
          as [[Htitle [titleText ->]] | [-> | ->]];
          apply mapIO_Ok in Hok as (result & Hok & ->).
        -- do 3 right. left. exists result. repeat split; [|assumption].
           eapply searchAt_source, Hok.
        -- do 4 right. left. exists result. split; [reflexivity|]. left.
           eapply stremioAt_source, Hok.
        -- do 4 right. left. exists result. split; [reflexivity|]. right.
           eapply tryInstances_source, Hok.
    + exists {| status := 400; body := ErrorBody "Missing required parameter: id" |}, [].
      rewrite app_nil_r. split; [now apply handler_missing_id | auto].
  - destruct (handler_other_methods net (searchAt v net) (stremioAt v net) req t Hother)
      as (response & -> & [[-> _] | [-> _]]); eexists; exists []; rewrite app_nil_r;
      (split; [reflexivity|]); auto.
Qed.

(** ** The calls of one request *)

Lemma callsOf_app t u : callsOf (t ++ u) = callsOf t ++ callsOf u.
Proof. apply flat_map_app. Qed.

Lemma callsOf_calls calls : callsOf (map Fetch calls) = calls.
Proof. induction calls as [|c calls IH]; simpl; [reflexivity | now rewrite IH]. Qed.

Lemma mapIO_emits {A B} n (f : A -> B) (m : IO A) : emits n m -> emits n (mapIO f m).
Proof.
  intros H t. destruct (H t) as (calls & Hc & Hn & Hb). exists calls.
  rewrite mapIO_run. destruct (m t) as [[a | e] t']; now repeat split.
Qed.

Lemma searchAt_emits v net title author duration :
  emits 1 (searchAt v net title author duration).
Proof.
  intros t. exists [searchCall title author].
  destruct (search_run v net title author duration t) as (outcome & -> & _).
  split; [reflexivity|]. split; [simpl; lia|]. constructor; [now right | constructor].
Qed.

Lemma tryInstances_emits net source base exhausted instances videoId :
  emits (List.length instances) (tryInstances net source base exhausted instances videoId).
Proof.
  intros t.
  destruct (Walk_trace _ _ _ _ _ _ _ _ _
              (tryInstances_walk net source base exhausted videoId instances t))
    as (k & Hk & -> & _).
  exists (map (callOf base videoId) (firstn k instances)).
  split; [now rewrite map_map|]. split.
  - rewrite length_map, length_firstn. lia.
  - apply Forall_map, Forall_forall. intros instance _. now left.
Qed.

Lemma stremioAt_emits v net videoId :
  emits (List.length (stremioListAt v)) (stremioAt v net videoId).
Proof. destruct v; apply tryInstances_emits. Qed.

(** The state machine makes no more calls than its strategies may. *)
Lemma Fallback_calls exhausted plan t response t' : forall bounds,
  Forall2 (fun entry n => emits n (snd entry)) plan bounds ->
  Fallback exhausted plan t response t' ->
  exists events,
    t' = t ++ events
    /\ (List.length (callsOf events) <= list_sum bounds)%nat
    /\ Forall budgeted (callsOf events).
Proof.
  intros bounds Hq H. revert bounds Hq.
  induction H as [t | s run rest t found t' Hrun | s run rest t e t' response t'' Hrun H IH];
    intros bounds Hq.
  - exists []. rewrite app_nil_r. repeat split; [simpl; lia | constructor].
  - inversion Hq as [|? n ? bounds' Hrunq _]; subst. simpl in Hrunq.
    destruct (Hrunq (t ++ [Trying s])) as (calls & Hc & Hn & Hb).
    rewrite Hrun in Hc. simpl in Hc.
    exists (Trying s :: map Fetch calls). repeat split.
    + now rewrite Hc, <- app_assoc.
    + simpl. rewrite callsOf_calls. lia.
    + simpl. now rewrite callsOf_calls.
  - inversion Hq as [|? n ? bounds' Hrunq Hrestq]; subst. simpl in Hrunq.
    destruct (Hrunq (t ++ [Trying s])) as (calls & Hc & Hn & Hb).
    rewrite Hrun in Hc. simpl in Hc.
    destruct (IH bounds' Hrestq) as (events & -> & Hlen & Hbud).
    exists (Trying s :: map Fetch calls ++ events). repeat split.
    + now rewrite Hc, <- !app_assoc.
    + simpl. rewrite callsOf_app, callsOf_calls, length_app. lia.
    + simpl. rewrite callsOf_app, callsOf_calls. now apply Forall_app.
Qed.

Lemma plan_emits v net q videoId :
  Forall2 (fun entry n => emits n (snd entry))
    (planAt v net q videoId)
    ((if truthy (title q) then [1%nat] else [])
     ++ [List.length (stremioListAt v); List.length INVIDIOUS_INSTANCES]).
Proof.
  unfold planAt, planOf, truthy. apply Forall2_app.
  - destruct (title q) as [titleText|]; [|constructor].
    destruct (isEmpty titleText); simpl; constructor; [|constructor].
    apply mapIO_emits, searchAt_emits.
  - repeat constructor; simpl; apply mapIO_emits;
      [apply stremioAt_emits | apply tryInstances_emits].
Qed.

(** The number of calls of one request, and their budgets. *)
Lemma calls_count_bound (v : Version) (net : Network) (req : Request) (t : Trace) :
  exists response events,
    handlerAt v net req t = (Ok response, t ++ events)
    /\ (List.length (callsOf events)
        <= (if truthy (title (query req)) then 1 else 0)
           + List.length (stremioListAt v) + List.length INVIDIOUS_INSTANCES)%nat
    /\ (List.length (callsOf events) <= 14)%nat
    /\ Forall budgeted (callsOf events).
Proof.
  assert (Hnone : forall response,
            handlerAt v net req t = (Ok response, t) ->
            exists response events,
              handlerAt v net req t = (Ok response, t ++ events)
              /\ (List.length (callsOf events)
                  <= (if truthy (title (query req)) then 1 else 0)
                     + List.length (stremioListAt v) + List.length INVIDIOUS_INSTANCES)%nat
              /\ (List.length (callsOf events) <= 14)%nat
              /\ Forall budgeted (callsOf events)).
  { intros response H. exists response, []. rewrite app_nil_r.
    repeat split; simpl; try lia; [assumption | constructor]. }
  destruct (String.eqb_spec (method req) "GET") as [Hget | Hother].
  - destruct (truthy (id (query req))) eqn:Hid.
    + unfold truthy in Hid. destruct (id (query req)) as [videoId|] eqn:Hv; [|discriminate].
      apply negb_true_iff in Hid. rewrite handlerAt_handlerOf.
      destruct (handler_fallback net (searchAt v net) (stremioAt v net) req videoId t
                  Hget Hv Hid) as (response & t' & Hrun & Hfb).
      destruct (Fallback_calls _ _ _ _ _ _ (plan_emits v net (query req) videoId) Hfb)
        as (events & -> & Hlen & Hbud).
      exists response, events. split; [exact Hrun|].
      rewrite list_sum_app in Hlen. simpl in Hlen.
      assert (Hs : (List.length (stremioListAt v) <= 3)%nat) by (destruct v; simpl; lia).
      destruct (truthy (title (query req))); simpl in *; repeat split; try lia; assumption.
    + eapply Hnone. rewrite handlerAt_handlerOf. now apply handler_missing_id.
  - destruct (handler_other_methods net (searchAt v net) (stremioAt v net) req t Hother)
      as (response & Hrun & _).
    apply (Hnone response). now rewrite handlerAt_handlerOf.
Qed.

(** Which calls one request makes. *)

Lemma mapIO_callsWithin {A B} allowed (f : A -> B) (m : IO A) :
  callsWithin allowed m -> callsWithin allowed (mapIO f m).
Proof.
  intros H t. destruct (H t) as (k & Hk). exists k.
  rewrite mapIO_run. now destruct (m t) as [[a | e] t'].
Qed.

Lemma searchAt_callsWithin v net title author duration :
  callsWithin [searchCall title author] (searchAt v net title author duration).
Proof.
  intros t. exists 1%nat.
  now destruct (search_run v net title author duration t) as (outcome & -> & _).
Qed.

Lemma tryInstances_callsWithin net source base exhausted instances videoId :
  callsWithin (map (callOf base videoId) instances)
    (tryInstances net source base exhausted instances videoId).
Proof.
  intros t.
  destruct (Walk_trace _ _ _ _ _ _ _ _ _
              (tryInstances_walk net source base exhausted videoId instances t))
    as (k & _ & -> & _).
  exists k. now rewrite firstn_map, map_map.
Qed.

Lemma stremioAt_callsWithin v net videoId :
  callsWithin (stremioCalls v videoId) (stremioAt v net videoId).
Proof. destruct v; apply tryInstances_callsWithin. Qed.

Lemma untouched_parts {A} (alloweds : list (list A)) :
  Forall2 prefixOf (map (fun _ : list A => @nil A) alloweds) alloweds
  /\ List.concat (map (fun _ : list A => @nil A) alloweds) = [].
Proof.
  induction alloweds as [|allowed alloweds [IH1 IH2]]; simpl; split; auto.
  constructor; [now exists 0%nat | assumption].
Qed.

(** The calls of a run of the state machine, strategy by strategy: each
    strategy leaves the first calls of those it may make, a strategy that is
    not entered none. *)
Lemma Fallback_parts exhausted plan t response t' : forall alloweds,
  Forall2 (fun entry allowed => callsWithin allowed (snd entry)) plan alloweds ->
  Fallback exhausted plan t response t' ->
  exists events parts,
    t' = t ++ events
    /\ Forall2 prefixOf parts alloweds
    /\ callsOf events = List.concat parts.
Proof.
  intros alloweds Hq H. revert alloweds Hq.
  induction H as [t | s run rest t found t' Hrun | s run rest t e t' response t'' Hrun H IH];
    intros alloweds Hq.
  - inversion Hq; subst. exists [], []. rewrite app_nil_r. repeat split. constructor.
  - inversion Hq as [|? allowed ? alloweds' Hrunq _]; subst. simpl in Hrunq.
    destruct (Hrunq (t ++ [Trying s])) as (k & Hk). rewrite Hrun in Hk. simpl in Hk.
    destruct (untouched_parts alloweds') as [Hparts Hnil].
    exists (Trying s :: map Fetch (firstn k allowed)),
           (firstn k allowed :: map (fun _ : list Call => @nil Call) alloweds').
    split; [now rewrite Hk, <- app_assoc|]. split.
    + constructor; [now exists k | assumption].
    + simpl. now rewrite callsOf_calls, Hnil, app_nil_r.
  - inversion Hq as [|? allowed ? alloweds' Hrunq Hrestq]; subst. simpl in Hrunq.
    destruct (Hrunq (t ++ [Trying s])) as (k & Hk). rewrite Hrun in Hk. simpl in Hk.
    destruct (IH alloweds' Hrestq) as (events & parts & -> & Hparts & Hcalls).
    exists (Trying s :: map Fetch (firstn k allowed) ++ events), (firstn k allowed :: parts).
    split; [now rewrite Hk, <- !app_assoc|]. split.
    + constructor; [now exists k | assumption].
    + simpl. now rewrite callsOf_app, callsOf_calls, Hcalls.
Qed.

Lemma plan_callsWithin v net q videoId :
  Forall2 (fun entry allowed => callsWithin allowed (snd entry))
    (planAt v net q videoId) (allowedCalls v q videoId).
Proof.
  unfold planAt, planOf, allowedCalls. apply Forall2_app.
  - destruct (title q) as [titleText|]; [|constructor].
    destruct (isEmpty titleText); constructor; [|constructor].
    apply mapIO_callsWithin, searchAt_callsWithin.
  - repeat constructor; simpl; apply mapIO_callsWithin;
      [apply stremioAt_callsWithin | apply tryInstances_callsWithin].
Qed.

(** The parts of the calls of a request, read off the strategies. *)
Lemma allowed_parts v q videoId parts :
  Forall2 prefixOf parts (allowedCalls v q videoId) ->
  exists metadata stremio invidious,
    List.concat parts = metadata ++ stremio ++ invidious
    /\ (metadata = []
        \/ exists titleText,
             title q = Some titleText /\ isEmpty titleText = false
             /\ metadata = [searchCall titleText (author q)])
    /\ prefixOf stremio (stremioCalls v videoId)
    /\ prefixOf invidious (invidiousCalls videoId).
Proof.
  unfold allowedCalls. intros H.
  apply Forall2_app_inv_r in H as (head & tail & Hhead & Htail & ->).
  inversion Htail as [|stremio ? tail' ? Hs Htail']; subst.
  inversion Htail' as [|invidious ? tail'' ? Hi Hnil]; subst.
  inversion Hnil; subst.
  rewrite List.concat_app. simpl. rewrite app_nil_r.
  exists (List.concat head), stremio, invidious.
  split; [reflexivity|]. split; [|now split].
  destruct (title q) as [titleText|]; [destruct (isEmpty titleText) eqn:Ht|];
    try (inversion Hhead; subst; now left).
  inversion Hhead as [|metadata ? head' ? [k Hk] Hnone]; subst.
  inversion Hnone; subst. simpl. rewrite app_nil_r.
  destruct k as [|k]; [now left|].
  right. exists titleText. simpl. now rewrite firstn_nil.
Qed.

(** X16: the outbound calls of one request are, in this order: at most one
    call to the metadata service, to the search URL of the title and author
    (none without a title); calls to the first entries of the Stremio list,
    one for each entry and in the order of the list; calls to the first of the
    ten Invidious instances, likewise.  They are at most 14 in all, each with
    a budget of 8 or 10 seconds. *)
Theorem calls_per_request (v : Version) (net : Network) (req : Request) (t : Trace) :
  exists response events metadata stremio invidious,
    handlerAt v net req t = (Ok response, t ++ events)
    /\ callsOf events = metadata ++ stremio ++ invidious
    /\ (metadata = []
        \/ exists titleText,
             title (query req) = Some titleText /\ isEmpty titleText = false
             /\ metadata = [searchCall titleText (author (query req))])
    /\ prefixOf stremio (stremioCalls v (idOf (query req)))
    /\ prefixOf invidious (invidiousCalls (idOf (query req)))
    /\ (List.length (callsOf events)
        <= (if truthy (title (query req)) then 1 else 0)
           + List.length (stremioListAt v) + List.length INVIDIOUS_INSTANCES)%nat
    /\ (List.length (callsOf events) <= 14)%nat
    /\ Forall budgeted (callsOf events).
Proof.
  destruct (calls_count_bound v net req t)
    as (response & events & Hrun & Hsum & Hmax & Hbud).
  exists response, events.
  assert (Hparts : exists parts,
            Forall2 prefixOf parts (allowedCalls v (query req) (idOf (query req)))
            /\ callsOf events = List.concat parts).
  { destruct (String.eqb_spec (method req) "GET") as [Hget | Hother].
    - destruct (truthy (id (query req))) eqn:Hid.
      + unfold truthy in Hid. unfold idOf.
        destruct (id (query req)) as [videoId|] eqn:Hv; [|discriminate].
        apply negb_true_iff in Hid. rewrite handlerAt_handlerOf in Hrun.
        destruct (handler_fallback net (searchAt v net) (stremioAt v net) req videoId t
                    Hget Hv Hid) as (response' & t' & Hrun' & Hfb).
        rewrite Hrun in Hrun'. injection Hrun' as <- <-.
        destruct (Fallback_parts _ _ _ _ _ _ (plan_callsWithin v net (query req) videoId) Hfb)
          as (events' & parts & Heq & Hpre & Hcalls).
        apply app_inv_head in Heq as <-. now exists parts.
      + rewrite handlerAt_handlerOf, (handler_missing_id net _ _ req t Hget Hid) in Hrun.
        injection Hrun as _ Hev. rewrite <- (app_nil_r t) in Hev at 1.
        apply app_inv_head in Hev as <-.
        exists (map (fun _ : list Call => @nil Call) (allowedCalls v (query req) (idOf (query req)))).
        destruct (untouched_parts (allowedCalls v (query req) (idOf (query req))))
          as [Hpre Hnil].
        split; [assumption | now rewrite Hnil].
    - rewrite handlerAt_handlerOf in Hrun.
      destruct (handler_other_methods net (searchAt v net) (stremioAt v net) req t Hother)
        as (response' & Hrun' & _).
      rewrite Hrun in Hrun'. injection Hrun' as _ Hev. rewrite <- (app_nil_r t) in Hev at 2.
      apply app_inv_head in Hev as ->.
      exists (map (fun _ : list Call => @nil Call) (allowedCalls v (query req) (idOf (query req)))).
      destruct (untouched_parts (allowedCalls v (query req) (idOf (query req))))
        as [Hpre Hnil].
      split; [assumption | now rewrite Hnil]. }
  destruct Hparts as (parts & Hpre & Hcalls).
  destruct (allowed_parts v (query req) (idOf (query req)) parts Hpre)
    as (metadata & stremio & invidious & Hconcat & Hmeta & Hs & Hi).
  exists metadata, stremio, invidious.
  rewrite Hcalls at 1. now repeat split.
Qed.

(** ** The search URL *)

Lemma allChars_app p a b : allChars p (a ++ b)%string = allChars p a && allChars p b.
Proof. induction a as [|c a IH]; simpl; [reflexivity|]. now rewrite IH, andb_assoc. Qed.

Lemma encoded_char_safe c :
  allChars urlSafe
    (if unreserved c then String c EmptyString
     else if (nat_of_ascii c <? 128)%nat then percent (nat_of_ascii c)
     else (percent (192 + nat_of_ascii c / 64) ++ percent (128 + nat_of_ascii c mod 64))%string)
  = true.
Proof. each_char c. Qed.

Lemma encodeURIComponent_safe s : allChars urlSafe (encodeURIComponent s) = true.
Proof.
  induction s as [|c s IH]; simpl; [reflexivity|].
  now rewrite allChars_app, encoded_char_safe, IH.
Qed.

(** X17: whatever the title and the author hint contain, the search URL is the
    fixed prefix followed by a query made of unreserved characters and
    percent escapes only: a hint cannot add a parameter, a fragment or a space
    to the URL. *)
Theorem search_url_is_escaped (title : string) (author : option string) :
  exists query,
    searchUrlOf title author
    = ("https://saavn.sumit.co/api/search/songs?query=" ++ query)%string
    /\ allChars urlSafe query = true.
Proof.
  unfold searchUrlOf. eexists. split; [reflexivity|]. apply encodeURIComponent_safe.
Qed.

(** ** The letter case of the hints *)

Lemma fold_left_ext_eq {A B} (f g : A -> B -> A) :
  (forall a b, f a b = g a b) -> forall l a, fold_left f l a = fold_left g l a.
Proof.
  intros H. induction l as [|b l IH]; intros a; simpl; [reflexivity|].
  now rewrite H, IH.
Qed.

Lemma scoringPass_title_case title names targetDuration results :
  Scored.scoringPass (toLowerCase title) names targetDuration results
  = Scored.scoringPass title names targetDuration results.
Proof.
  unfold Scored.scoringPass, Scored.scan.
  rewrite (fold_left_ext_eq (Scored.visit (toLowerCase title) names targetDuration)
             (Scored.visit title names targetDuration)); [reflexivity|].
  intros st song.
  unfold Scored.visit, Scored.score, Scored.titleMatch. now rewrite toLowerCase_idem.
Qed.

Lemma Scored_authorNames_case author :
  Scored.authorNames (toLowerCase author) = Scored.authorNames author.
Proof. unfold Scored.authorNames. now rewrite toLowerCase_idem. Qed.

Lemma Reduced_authorNames_case author :
  Reduced.authorNames (toLowerCase author) = Reduced.authorNames author.
Proof. unfold Reduced.authorNames. now rewrite toLowerCase_idem. Qed.

(** X18: in every version the selection does not depend on the letter case of
    the title and author hints: lower-casing both hints gives the same
    song, or the same rejection. *)
Theorem selection_ignores_case (v : Version) (title : string)
    (author duration : option string) (first : Song.t) (rest : list Song.t) :
  selectorAt v (toLowerCase title) (option_map toLowerCase author) duration first rest
  = selectorAt v title author duration first rest.
Proof.
  destruct v; cbn [selectorAt]; [reflexivity | |].
  - unfold Scored.selectBest. destruct author as [a|]; [|reflexivity]. simpl.
    destruct duration as [d|]; [|reflexivity].
    rewrite isEmpty_toLowerCase, Scored_authorNames_case.
    destruct (negb (isEmpty a) && negb (isEmpty d)); [|reflexivity].
    apply scoringPass_title_case.
  - unfold Reduced.selectBest. destruct author as [a|]; [|reflexivity]. simpl.
    destruct duration as [d|]; [|reflexivity].
    now rewrite isEmpty_toLowerCase, Reduced_authorNames_case.
Qed.
